(** * KISS FFT (SIMD build): a shallow embedding of kiss_fft.c

    The development follows the source file top-down:
    - [CInt]: the C [int] type (32 bits, two's complement).
    - [Factor]: [kf_factor], the factorizer that fills [st->factors].
    - [FastSize]: [kiss_fft_next_fast_size].
    - [Engine]: butterflies, [kf_work], [kiss_fft_alloc], [kiss_fft_stride].
    - [Exact], [Modular]: two backends with exact arithmetic, on which the
      engine can be run.
    - [SSETools]: the pack/unpack helpers for four interleaved signals.

    Definitions come first, then the results about each of them. *)

From Stdlib Require Import ZArith Znumtheory Zpow_facts List Lia Bool String Arith PeanoNat.
Import ListNotations.

(** ** C integers *)

Module CInt.
Local Open Scope Z_scope.

Definition INT_MAX : Z := 2147483647.
Definition INT_MIN : Z := -2147483648.

(** Result of an [int] addition as the hardware gives it: reduced into
    [INT_MIN .. INT_MAX] modulo 2^32. *)
Definition wrap_int (z : Z) : Z := (z + 2147483648) mod 4294967296 - 2147483648.

End CInt.

(** ** The factorizer *)

Module Factor.
Import CInt.
Local Open Scope Z_scope.

(** The [switch (p)] of [kf_factor]: 4 -> 2 -> 3 -> p + 2. *)
Definition next_trial (p : Z) : Z :=
  if p =? 4 then 2
  else if p =? 2 then 3
  else wrap_int (p + 2).

(** [while (n % p) { switch ...; if (p > floor_sqrt) p = n; }].
    Returns the value of [p] on leaving the loop; [None] when the fuel
    runs out first. *)
Fixpoint kf_factor_trial (fuel : nat) (floor_sqrt n p : Z) : option Z :=
  if Z.rem n p =? 0 then Some p
  else
    match fuel with
    | O => None
    | S fuel' =>
        let p := next_trial p in
        let p := if p >? floor_sqrt then n else p in
        kf_factor_trial fuel' floor_sqrt n p
    end.

(** Iterations granted to one run of the inner loop. *)
Definition trial_fuel (floor_sqrt : Z) : nat := Z.to_nat floor_sqrt + 3.

(** [do { while ...; n /= p; *facbuf++ = p; *facbuf++ = n; } while (n > 1)].
    The factor buffer is the list of the pairs (p, n) written. *)
Fixpoint kf_factor_loop (fuel : nat) (floor_sqrt n p : Z) : option (list (Z * Z)) :=
  match fuel with
  | O => None
  | S fuel' =>
      match kf_factor_trial (trial_fuel floor_sqrt) floor_sqrt n p with
      | None => None
      | Some p =>
          let n := Z.quot n p in
          if n >? 1
          then option_map (cons (p, n)) (kf_factor_loop fuel' floor_sqrt n p)
          else Some [(p, n)]
      end
  end.

(** [floor(sqrt((double)n))]: for 0 <= n < 2^31 the conversion to double is
    exact and the correctly rounded square root never reaches the next
    integer, so the value is the integer square root. *)
Definition floor_sqrt (n : Z) : Z := Z.sqrt n.

(** [kf_factor(n, facbuf)], started with [p = 4]. *)
Definition kf_factor (n : Z) : option (list (Z * Z)) :=
  kf_factor_loop (S (Z.to_nat (Z.log2 n))) (floor_sqrt n) n 4.

(** The invariant written above [kf_factor] in the source:
    [p[i] * m[i] = m[i-1]], [m0 = n]; the buffer ends when [m] reaches 1. *)
Fixpoint factor_chain (prev : Z) (l : list (Z * Z)) : Prop :=
  match l with
  | [] => prev = 1
  | (p, m) :: l' => p * m = prev /\ m = Z.quot prev p /\ factor_chain m l'
  end.

Definition radix_product (l : list (Z * Z)) : Z :=
  fold_right Z.mul 1 (map fst l).

(** The values [p] takes while the inner loop still runs: 4, then 2, then
    the odd numbers up to [floor_sqrt]. *)
Definition trial_ok (fs p : Z) : Prop :=
  p = 4 \/ (p = 2 /\ 2 <= fs) \/ (3 <= p <= fs /\ Z.odd p = true).

(** What the trials before [p] have established about the remaining [n]. *)
Definition sieved (p n : Z) : Prop :=
  p <> 4 -> ~ (4 | n) /\ forall d, 2 <= d < p -> ~ (d | n).

(** Rounds the inner loop can still make from [p]. *)
Definition trial_measure (fs p : Z) : Z :=
  if p =? 4 then fs + 3 else if p =? 2 then fs + 2 else fs + 4 - p.

(** Place of a radix in the trial order 4, 2, 3, 5, 7, ... *)
Definition rank (p : Z) : Z := if p =? 4 then 0 else p.

(** Relation between [p] on entering the inner loop and [p'] on leaving it,
    for the remaining length [n]. *)
Definition step_ok (fs n p p' : Z) : Prop :=
  (p' | n) /\ 0 < p' /\ (2 <= n -> rank p <= rank p') /\
  ((trial_ok fs p' /\ sieved p' n) \/ (p' = n /\ (n = 1 \/ Z.prime n))).

(** The pairs written from the state ([n], [p]) on. *)
Inductive emits (fs : Z) : Z -> Z -> list (Z * Z) -> Prop :=
| emits_last n p p' :
    step_ok fs n p p' -> Z.quot n p' <= 1 ->
    emits fs n p [(p', Z.quot n p')]
| emits_more n p p' l :
    step_ok fs n p p' -> 1 < Z.quot n p' ->
    emits fs (Z.quot n p') p' l ->
    emits fs n p ((p', Z.quot n p') :: l).

(** The radices follow the trial order. *)
Fixpoint trial_sorted (prev : Z) (l : list (Z * Z)) : Prop :=
  match l with
  | [] => True
  | (p, _) :: l' => rank prev <= rank p /\ trial_sorted p l'
  end.

(** The loop with the bound recomputed from the remaining length before each
    run of the inner loop, and the function it gives: the "floor of the
    square root of the remaining N" of the specification, kept at the place
    where the code compares. *)
Fixpoint kf_factor_loop_remaining (fuel : nat) (n p : Z) : option (list (Z * Z)) :=
  match fuel with
  | O => None
  | S fuel' =>
      match kf_factor_trial (trial_fuel (floor_sqrt n)) (floor_sqrt n) n p with
      | None => None
      | Some p =>
          let n := Z.quot n p in
          if n >? 1
          then option_map (cons (p, n)) (kf_factor_loop_remaining fuel' n p)
          else Some [(p, n)]
      end
  end.

Definition kf_factor_remaining (n : Z) : option (list (Z * Z)) :=
  kf_factor_loop_remaining (S (Z.to_nat (Z.log2 n))) n 4.

(** What the inner loop can leave in [p] for the remaining length [n],
    whatever bound it compares with. *)
Definition emitted_by (n p' : Z) : Prop :=
  (p' | n) /\ ((2 <= p' /\ sieved p' n) \/ (p' = n /\ (n = 1 \/ Z.prime n))).

(** The reading of the early stop as the specification words it: a radix
    above the floor of the square root of the length it was taken from is
    that whole length. *)
Definition stops_at_remaining_sqrt (l : list (Z * Z)) : Prop :=
  Forall (fun pm => Z.sqrt (fst pm * snd pm) < fst pm -> snd pm = 1) l.

End Factor.

(** ** The length advisory *)

Module FastSize.
Import CInt.
Local Open Scope Z_scope.

(** [while ((m % d) == 0) m /= d;] with C's truncating [%] and [/].
    [None] when the fuel runs out: for [m = 0] the loop never ends. *)
Fixpoint strip (fuel : nat) (d m : Z) : option Z :=
  if Z.rem m d =? 0 then
    match fuel with
    | O => None
    | S fuel' => strip fuel' d (Z.quot m d)
    end
  else Some m.

(** The [while (1)] loop of [kiss_fft_next_fast_size]; [n++] is an [int]
    increment. *)
Fixpoint kiss_fft_next_fast_size (fuel : nat) (n : Z) : option Z :=
  match fuel with
  | O => None
  | S fuel' =>
      match strip fuel 2 n with
      | None => None
      | Some m =>
          match strip fuel 3 m with
          | None => None
          | Some m =>
              match strip fuel 5 m with
              | None => None
              | Some m =>
                  if m <=? 1 then Some n
                  else kiss_fft_next_fast_size fuel' (wrap_int (n + 1))
              end
          end
      end
  end.

(** The call returns [m]: some amount of fuel lets the loop finish. *)
Definition returns (n m : Z) : Prop :=
  exists fuel, kiss_fft_next_fast_size fuel n = Some m.

(** "only prime factors are 2, 3 and 5". *)
Definition only_235 (m : Z) : Prop :=
  forall q, Z.prime q -> (q | m) -> q = 2 \/ q = 3 \/ q = 5.

(** "factors completely over {2,3,5}". *)
Definition smooth235 (m : Z) : Prop :=
  exists a b c : nat, m = 2 ^ Z.of_nat a * 3 ^ Z.of_nat b * 5 ^ Z.of_nat c.

(** The largest [int] of the form 2^a 3^b 5^c (2^5 * 3^12 * 5^3). *)
Definition MAX_FAST : Z := 2125764000.

(** The length advisory as the specification words it, for the input [n]:
    the call returns the least [m >= n] whose only prime factors are 2, 3
    and 5. *)
Definition least_fast_from (n : Z) : Prop :=
  exists m, returns n m /\ n <= m /\ only_235 m /\
            forall k, n <= k < m -> ~ only_235 k.

End FastSize.

(** ** The transform engine *)

Module Engine.
Local Open Scope nat_scope.

(** What [kiss_fft.c] takes from [_kiss_fft_guts.h] and [kiss_fft.h], which
    are not part of the sources: the scalar type with its arithmetic (here
    [__m128], four packed floats), the complex macros, [kf_cexp] and the
    temporary allocator.  They are kept abstract and no algebraic law is
    assumed of them. *)
Class KissGuts : Type := {
  kiss_fft_scalar : Type;
  s_add : kiss_fft_scalar -> kiss_fft_scalar -> kiss_fft_scalar;
  s_sub : kiss_fft_scalar -> kiss_fft_scalar -> kiss_fft_scalar;
  s_neg : kiss_fft_scalar -> kiss_fft_scalar;
  S_MUL : kiss_fft_scalar -> kiss_fft_scalar -> kiss_fft_scalar;
  HALF_OF : kiss_fft_scalar -> kiss_fft_scalar;
  (** [double] phases: [-2*pi*i / nfft], and [phase *= -1]. *)
  phase : Type;
  twiddle_phase : nat -> Z -> phase;
  phase_neg : phase -> phase;
}.

Section WithGuts.
Context {G : KissGuts}.

(** [kiss_fft_cpx]. *)
Record kiss_fft_cpx : Type := mk_cpx { r : kiss_fft_scalar; i : kiss_fft_scalar }.

(** An array of complex samples, addressed from its first element. *)
Definition buf : Type := nat -> kiss_fft_cpx.

(** The rest of the header: the complex macros, [kf_cexp], and
    [KISS_FFT_TMP_ALLOC] for a number of samples, which yields [None] (NULL)
    or a block with unspecified contents.  With them goes [stray], the
    memory in front of the twiddle table, which an [int] index below zero
    reaches: C gives such a read no meaning, and nothing is assumed of what
    it delivers. *)
Class KissMacros : Type := {
  C_MUL : kiss_fft_cpx -> kiss_fft_cpx -> kiss_fft_cpx;
  C_ADD : kiss_fft_cpx -> kiss_fft_cpx -> kiss_fft_cpx;
  C_SUB : kiss_fft_cpx -> kiss_fft_cpx -> kiss_fft_cpx;
  C_ADDTO : kiss_fft_cpx -> kiss_fft_cpx -> kiss_fft_cpx;
  C_MULBYSCALAR : kiss_fft_cpx -> kiss_fft_scalar -> kiss_fft_cpx;
  kf_cexp : phase -> kiss_fft_cpx;
  KISS_FFT_TMP_ALLOC : nat -> option buf;
  stray : Z -> kiss_fft_cpx;
}.

Context {M : KissMacros}.

(** [a[k] = v]. *)
Definition upd (a : buf) (k : nat) (v : kiss_fft_cpx) : buf :=
  fun j => if Nat.eqb j k then v else a j.

(** Modelled from the spec: [C_FIXDIV], a macro of the missing header,
    applied to the cell [a[k]].  The spec (4.3) has the division by the
    radix "an identity no-op" in a floating-point backend, which this build
    ([USE_SIMD]) is: the array is left as it is. *)
Definition C_FIXDIV (a : buf) (k : nat) (div : nat) : buf := a.

(** [struct kiss_fft_state].  Plan sizes are non-negative [int]s and are
    kept as [nat]; [factors] is the buffer p1,m1,p2,m2,... as pairs; only
    the first [nfft] entries of [twiddles] exist. *)
Record kiss_fft_state : Type := mk_state {
  nfft : nat;
  inverse : bool;
  factors : list (nat * nat);
  twiddles : buf;
}.

(** *** Radix 2.  The [do ... while (--m)] loops below run [m] times for
    [m >= 1], the only values a plan produces. *)
Fixpoint bfly2_loop (k : nat) (tw : buf) (fstride : nat)
  (Fout Fout2 tw1 : nat) (F : buf) : buf :=
  match k with
  | O => F
  | S k' =>
      let F := C_FIXDIV F Fout 2 in
      let F := C_FIXDIV F Fout2 2 in
      let t := C_MUL (F Fout2) (tw tw1) in
      let tw1 := tw1 + fstride in
      let F := upd F Fout2 (C_SUB (F Fout) t) in
      let F := upd F Fout (C_ADDTO (F Fout) t) in
      bfly2_loop k' tw fstride (Fout + 1) (Fout2 + 1) tw1 F
  end.

Definition kf_bfly2 (F : buf) (Fout : nat) (fstride : nat)
  (st : kiss_fft_state) (m : nat) : buf :=
  bfly2_loop m (twiddles st) fstride Fout (Fout + m) 0 F.

(** *** Radix 4 *)
Fixpoint bfly4_loop (k : nat) (tw : buf) (inv : bool) (fstride m m2 m3 : nat)
  (Fout tw1 tw2 tw3 : nat) (F : buf) : buf :=
  match k with
  | O => F
  | S k' =>
      let F := C_FIXDIV F Fout 4 in
      let F := C_FIXDIV F (Fout + m) 4 in
      let F := C_FIXDIV F (Fout + m2) 4 in
      let F := C_FIXDIV F (Fout + m3) 4 in
      let scratch0 := C_MUL (F (Fout + m)) (tw tw1) in
      let scratch1 := C_MUL (F (Fout + m2)) (tw tw2) in
      let scratch2 := C_MUL (F (Fout + m3)) (tw tw3) in
      let scratch5 := C_SUB (F Fout) scratch1 in
      let F := upd F Fout (C_ADDTO (F Fout) scratch1) in
      let scratch3 := C_ADD scratch0 scratch2 in
      let scratch4 := C_SUB scratch0 scratch2 in
      let F := upd F (Fout + m2) (C_SUB (F Fout) scratch3) in
      let tw1 := tw1 + fstride in
      let tw2 := tw2 + fstride * 2 in
      let tw3 := tw3 + fstride * 3 in
      let F := upd F Fout (C_ADDTO (F Fout) scratch3) in
      let F :=
        if inv then
          let F := upd F (Fout + m)
                     (mk_cpx (s_sub (r scratch5) (i scratch4))
                             (s_add (i scratch5) (r scratch4))) in
          upd F (Fout + m3)
            (mk_cpx (s_add (r scratch5) (i scratch4))
                    (s_sub (i scratch5) (r scratch4)))
        else
          let F := upd F (Fout + m)
                     (mk_cpx (s_add (r scratch5) (i scratch4))
                             (s_sub (i scratch5) (r scratch4))) in
          upd F (Fout + m3)
            (mk_cpx (s_sub (r scratch5) (i scratch4))
                    (s_add (i scratch5) (r scratch4))) in
      bfly4_loop k' tw inv fstride m m2 m3 (Fout + 1) tw1 tw2 tw3 F
  end.

Definition kf_bfly4 (F : buf) (Fout : nat) (fstride : nat)
  (st : kiss_fft_state) (m : nat) : buf :=
  bfly4_loop m (twiddles st) (inverse st) fstride m (2 * m) (3 * m) Fout 0 0 0 F.

(** *** Radix 3 *)
Fixpoint bfly3_loop (k : nat) (tw : buf) (epi3 : kiss_fft_cpx) (fstride m m2 : nat)
  (Fout tw1 tw2 : nat) (F : buf) : buf :=
  match k with
  | O => F
  | S k' =>
      let F := C_FIXDIV F Fout 3 in
      let F := C_FIXDIV F (Fout + m) 3 in
      let F := C_FIXDIV F (Fout + m2) 3 in
      let scratch1 := C_MUL (F (Fout + m)) (tw tw1) in
      let scratch2 := C_MUL (F (Fout + m2)) (tw tw2) in
      let scratch3 := C_ADD scratch1 scratch2 in
      let scratch0 := C_SUB scratch1 scratch2 in
      let tw1 := tw1 + fstride in
      let tw2 := tw2 + fstride * 2 in
      let F := upd F (Fout + m)
                 (mk_cpx (s_sub (r (F Fout)) (HALF_OF (r scratch3)))
                         (s_sub (i (F Fout)) (HALF_OF (i scratch3)))) in
      let scratch0 := C_MULBYSCALAR scratch0 (i epi3) in
      let F := upd F Fout (C_ADDTO (F Fout) scratch3) in
      let F := upd F (Fout + m2)
                 (mk_cpx (s_add (r (F (Fout + m))) (i scratch0))
                         (s_sub (i (F (Fout + m))) (r scratch0))) in
      let F := upd F (Fout + m)
                 (mk_cpx (s_sub (r (F (Fout + m))) (i scratch0))
                         (s_add (i (F (Fout + m))) (r scratch0))) in
      bfly3_loop k' tw epi3 fstride m m2 (Fout + 1) tw1 tw2 F
  end.

Definition kf_bfly3 (F : buf) (Fout : nat) (fstride : nat)
  (st : kiss_fft_state) (m : nat) : buf :=
  bfly3_loop m (twiddles st) (twiddles st (fstride * m)) fstride m (2 * m)
    Fout 0 0 F.

(** *** Radix 5 *)
Fixpoint bfly5_loop (k : nat) (tw : buf) (ya yb : kiss_fft_cpx) (fstride : nat)
  (u Fout0 Fout1 Fout2 Fout3 Fout4 : nat) (F : buf) : buf :=
  match k with
  | O => F
  | S k' =>
      let F := C_FIXDIV F Fout0 5 in
      let F := C_FIXDIV F Fout1 5 in
      let F := C_FIXDIV F Fout2 5 in
      let F := C_FIXDIV F Fout3 5 in
      let F := C_FIXDIV F Fout4 5 in
      let scratch0 := F Fout0 in
      let scratch1 := C_MUL (F Fout1) (tw (u * fstride)) in
      let scratch2 := C_MUL (F Fout2) (tw (2 * u * fstride)) in
      let scratch3 := C_MUL (F Fout3) (tw (3 * u * fstride)) in
      let scratch4 := C_MUL (F Fout4) (tw (4 * u * fstride)) in
      let scratch7 := C_ADD scratch1 scratch4 in
      let scratch10 := C_SUB scratch1 scratch4 in
      let scratch8 := C_ADD scratch2 scratch3 in
      let scratch9 := C_SUB scratch2 scratch3 in
      let F := upd F Fout0
                 (mk_cpx (s_add (r (F Fout0)) (s_add (r scratch7) (r scratch8)))
                         (s_add (i (F Fout0)) (s_add (i scratch7) (i scratch8)))) in
      let scratch5 :=
        mk_cpx (s_add (s_add (r scratch0) (S_MUL (r scratch7) (r ya)))
                      (S_MUL (r scratch8) (r yb)))
               (s_add (s_add (i scratch0) (S_MUL (i scratch7) (r ya)))
                      (S_MUL (i scratch8) (r yb))) in
      let scratch6 :=
        mk_cpx (s_add (S_MUL (i scratch10) (i ya)) (S_MUL (i scratch9) (i yb)))
               (s_sub (s_neg (S_MUL (r scratch10) (i ya)))
                      (S_MUL (r scratch9) (i yb))) in
      let F := upd F Fout1 (C_SUB scratch5 scratch6) in
      let F := upd F Fout4 (C_ADD scratch5 scratch6) in
      let scratch11 :=
        mk_cpx (s_add (s_add (r scratch0) (S_MUL (r scratch7) (r yb)))
                      (S_MUL (r scratch8) (r ya)))
               (s_add (s_add (i scratch0) (S_MUL (i scratch7) (r yb)))
                      (S_MUL (i scratch8) (r ya))) in
      let scratch12 :=
        mk_cpx (s_add (s_neg (S_MUL (i scratch10) (i yb)))
                      (S_MUL (i scratch9) (i ya)))
               (s_sub (S_MUL (r scratch10) (i yb)) (S_MUL (r scratch9) (i ya))) in
      let F := upd F Fout2 (C_ADD scratch11 scratch12) in
      let F := upd F Fout3 (C_SUB scratch11 scratch12) in
      bfly5_loop k' tw ya yb fstride (u + 1)
        (Fout0 + 1) (Fout1 + 1) (Fout2 + 1) (Fout3 + 1) (Fout4 + 1) F
  end.

Definition kf_bfly5 (F : buf) (Fout : nat) (fstride : nat)
  (st : kiss_fft_state) (m : nat) : buf :=
  bfly5_loop m (twiddles st) (twiddles st (fstride * m))
    (twiddles st (fstride * 2 * m)) fstride
    0 Fout (Fout + m) (Fout + 2 * m) (Fout + 3 * m) (Fout + 4 * m) F.

(** *** Any other radix *)

(** [for (q1 ; q1<p ; ++q1) { scratch[q1] = Fout[k]; C_FIXDIV(scratch[q1],p); k += m; }];
    [n] counts the iterations left. *)
Fixpoint generic_gather (n : nat) (F : buf) (Fout m p : nat)
  (q1 k : nat) (scratch : buf) : buf :=
  match n with
  | O => scratch
  | S n' =>
      let scratch := upd scratch q1 (F (Fout + k)) in
      let scratch := C_FIXDIV scratch q1 p in
      generic_gather n' F Fout m p (q1 + 1) (k + m) scratch
  end.

(** [twiddles[twidx]] for an [int] index. *)
Definition tw_read (tw : buf) (twidx : Z) : kiss_fft_cpx :=
  if (twidx <? 0)%Z then stray twidx else tw (Z.to_nat twidx).

(** One pass of [twidx += fstride * k; if (twidx>=Norig) twidx-=Norig;].
    [twidx] and [Norig] are [int]s and [fstride] is a [size_t]: the sum is
    formed in [size_t] and stored back into the [int], which keeps its low
    32 bits. *)
Definition twidx_step (fstride Norig k : nat) (twidx : Z) : Z :=
  let twidx := CInt.wrap_int (twidx + Z.of_nat (fstride * k)) in
  if (Z.of_nat Norig <=? twidx)%Z then (twidx - Z.of_nat Norig)%Z else twidx.

(** [for (q ; q<p ; ++q) { twidx...; C_MUL(t,scratch[q],twiddles[twidx]); C_ADDTO(Fout[k],t); }] *)
Fixpoint generic_accum (n : nat) (tw scratch : buf) (fstride Norig : nat)
  (Fout k q : nat) (twidx : Z) (F : buf) : buf :=
  match n with
  | O => F
  | S n' =>
      let twidx := twidx_step fstride Norig k twidx in
      let t := C_MUL (scratch q) (tw_read tw twidx) in
      let F := upd F (Fout + k) (C_ADDTO (F (Fout + k)) t) in
      generic_accum n' tw scratch fstride Norig Fout k (q + 1) twidx F
  end.

(** [for (q1 ; q1<p ; ++q1) { int twidx=0; Fout[k] = scratch[0]; for (q=1;q<p;++q) ...; k += m; }] *)
Fixpoint generic_scatter (n : nat) (tw scratch : buf) (fstride Norig : nat)
  (Fout m p : nat) (q1 k : nat) (F : buf) : buf :=
  match n with
  | O => F
  | S n' =>
      let F := upd F (Fout + k) (scratch 0) in
      let F := generic_accum (p - 1) tw scratch fstride Norig Fout k 1 0%Z F in
      generic_scatter n' tw scratch fstride Norig Fout m p (q1 + 1) (k + m) F
  end.

(** [for ( u ; u<m; ++u ) { k=u; gather; k=u; scatter }] *)
Fixpoint generic_loop (n : nat) (tw : buf) (fstride Norig : nat)
  (Fout m p : nat) (u : nat) (scratch : buf) (F : buf) : buf :=
  match n with
  | O => F
  | S n' =>
      let scratch := generic_gather p F Fout m p 0 u scratch in
      let F := generic_scatter p tw scratch fstride Norig Fout m p 0 u F in
      generic_loop n' tw fstride Norig Fout m p (u + 1) scratch F
  end.

(** When the scratch array cannot be had the function reports
    "Memory allocation failed." and returns, [Fout] untouched. *)
Definition kf_bfly_generic (F : buf) (Fout : nat) (fstride : nat)
  (st : kiss_fft_state) (m p : nat) : buf :=
  match KISS_FFT_TMP_ALLOC p with
  | None => F
  | Some scratch =>
      generic_loop m (twiddles st) fstride (nfft st) Fout m p 0 scratch F
  end.

(** *** The recursive driver *)

(** [switch (p)]: the butterfly that recombines the [p] smaller DFTs. *)
Definition kf_bfly (F : buf) (Fout : nat) (fstride : nat)
  (st : kiss_fft_state) (m p : nat) : buf :=
  match p with
  | 2 => kf_bfly2 F Fout fstride st m
  | 3 => kf_bfly3 F Fout fstride st m
  | 4 => kf_bfly4 F Fout fstride st m
  | 5 => kf_bfly5 F Fout fstride st m
  | _ => kf_bfly_generic F Fout fstride st m p
  end.

(** [do { *Fout = *f; f += fstride*in_stride; } while (++Fout != Fout_end);]
    with [Fout_end = Fout + p] ([m] is 1): [p] rounds for [p >= 1]. *)
Fixpoint work_copy (n : nat) (f : buf) (step : nat) (Fout fp : nat) (F : buf) : buf :=
  match n with
  | O => F
  | S n' => work_copy n' f step (Fout + 1) (fp + step) (upd F Fout (f fp))
  end.

(** [do { kf_work(Fout, f, fstride*p, ...); f += fstride*in_stride; } while ((Fout += m) != Fout_end);]
    with [Fout_end = Fout + p*m]: [p] rounds for [m >= 1].  [sub F Fout fp]
    is the recursive call on the array [F] at [Fout], reading from [fp]. *)
Fixpoint work_rounds (sub : buf -> nat -> nat -> buf) (n : nat) (m step : nat)
  (Fout fp : nat) (F : buf) : buf :=
  match n with
  | O => F
  | S n' => work_rounds sub n' m step (Fout + m) (fp + step) (sub F Fout fp)
  end.

(** [kf_work(Fout, f, fstride, in_stride, factors, st)]: [F] is the array
    [Fout] points into, [f] the input array and [fp] the position [f] points
    at.  The sequential build (no [_OPENMP]).  A plan never reads past the
    pairs [kf_factor] wrote; there the model stops. *)
Fixpoint kf_work (factors : list (nat * nat)) (F : buf) (Fout : nat)
  (f : buf) (fp : nat) (fstride in_stride : nat) (st : kiss_fft_state) : buf :=
  match factors with
  | [] => F
  | (p, m) :: factors' =>
      let F :=
        if m =? 1 then work_copy p f (fstride * in_stride) Fout fp F
        else
          work_rounds
            (fun F Fout fp => kf_work factors' F Fout f fp (fstride * p) in_stride st)
            p m (fstride * in_stride) Fout fp F in
      kf_bfly F Fout fstride st m p
  end.

(** *** Plans *)

(** The twiddle loop of [kiss_fft_alloc]:
    [for (i ; i<nfft ; ++i) { phase = -2*pi*i/nfft; if (inverse) phase *= -1; kf_cexp(twiddles+i, phase); }] *)
Fixpoint twiddle_loop (n : nat) (nfft : Z) (inv : bool) (i0 : nat) (tw : buf) : buf :=
  match n with
  | O => tw
  | S n' =>
      let ph := twiddle_phase i0 nfft in
      let ph := if inv then phase_neg ph else ph in
      twiddle_loop n' nfft inv (i0 + 1) (upd tw i0 (kf_cexp ph))
  end.

(** [kiss_fft_alloc(nfft, inverse_fft, mem, lenmem)].  [storage] stands for
    the block [st] ends up pointing to: [None] when [malloc] fails or the
    caller's block is missing or too small, else the (unspecified) contents
    of its twiddle array. *)
Definition kiss_fft_alloc (nfft0 : Z) (inverse_fft : Z) (storage : option buf)
  : option kiss_fft_state :=
  match storage with
  | None => None
  | Some tw =>
      let inv := negb (Z.eqb inverse_fft 0) in
      match Factor.kf_factor nfft0 with
      | None => None
      | Some l =>
          Some {| nfft := Z.to_nat nfft0;
                  inverse := inv;
                  factors := map (fun pm => (Z.to_nat (fst pm), Z.to_nat (snd pm))) l;
                  twiddles := twiddle_loop (Z.to_nat nfft0) nfft0 inv 0 tw |}
      end
  end.

(** *** Entry points *)

(** Caller memory: blocks of samples; a pointer is NULL or the start of a
    block. *)
Definition heap : Type := nat -> buf.
Definition ptr : Type := option nat.

Definition ptr_eqb (a b : ptr) : bool :=
  match a, b with
  | None, None => true
  | Some x, Some y => Nat.eqb x y
  | _, _ => false
  end.

Definition store (h : heap) (b : nat) (v : buf) : heap :=
  fun b' => if Nat.eqb b' b then v else h b'.

(** [memcpy(dst, src, sizeof(kiss_fft_cpx)*n)]. *)
Definition memcpy (dst src : buf) (n : nat) : buf :=
  fun j => if j <? n then src j else dst j.

(** How a call ends: normally, after [KISS_FFT_ERROR(msg)], or in a NULL
    dereference. *)
Inductive outcome : Type :=
| Done (h : heap)
| Failed (msg : string) (h : heap)
| Fault.

Definition kiss_fft_stride (st : kiss_fft_state) (fin fout : ptr)
  (in_stride : nat) (h : heap) : outcome :=
  if ptr_eqb fin fout then
    match fout with
    | None => Failed "fout buffer NULL." h
    | Some b =>
        match KISS_FFT_TMP_ALLOC (nfft st) with
        | None => Failed "Memory allocation error." h
        | Some tmpbuf =>
            let tmpbuf := kf_work (factors st) tmpbuf 0 (h b) 0 1 in_stride st in
            Done (store h b (memcpy (h b) tmpbuf (nfft st)))
        end
    end
  else
    match fin, fout with
    | Some a, Some b =>
        Done (store h b (kf_work (factors st) (h b) 0 (h a) 0 1 in_stride st))
    | _, _ => Fault
    end.

Definition kiss_fft (cfg : kiss_fft_state) (fin fout : ptr) (h : heap) : outcome :=
  kiss_fft_stride cfg fin fout 1 h.

(** *** Notions used by the results *)

(** The plan [st] with its direction flag set to [b]; the twiddle table is
    left as it is. *)
Definition with_inverse (b : bool) (st : kiss_fft_state) : kiss_fft_state :=
  mk_state (nfft st) b (factors st) (twiddles st).

(** A butterfly loop seen as [k] rounds, round [j] working on column [j]. *)
Fixpoint columns (body : nat -> buf -> buf) (k j : nat) (F : buf) : buf :=
  match k with
  | O => F
  | S k' => columns body k' (S j) (body j F)
  end.

(** Round [j] of each specialised butterfly on the block at [Fout], and the
    cells (its column) the round works on. *)
Definition body2 (tw : buf) (fstride Fout m : nat) (j : nat) (F : buf) : buf :=
  bfly2_loop 1 tw fstride (Fout + j) (Fout + m + j) (j * fstride) F.

Definition col2 (Fout m : nat) (j x : nat) : Prop :=
  x = Fout + j \/ x = Fout + m + j.

Definition body3 (tw : buf) (epi3 : kiss_fft_cpx) (fstride Fout m : nat)
  (j : nat) (F : buf) : buf :=
  bfly3_loop 1 tw epi3 fstride m (2 * m) (Fout + j)
    (j * fstride) (j * (fstride * 2)) F.

Definition col3 (Fout m : nat) (j x : nat) : Prop :=
  x = Fout + j \/ x = Fout + j + m \/ x = Fout + j + 2 * m.

Definition body4 (tw : buf) (inv : bool) (fstride Fout m : nat)
  (j : nat) (F : buf) : buf :=
  bfly4_loop 1 tw inv fstride m (2 * m) (3 * m) (Fout + j)
    (j * fstride) (j * (fstride * 2)) (j * (fstride * 3)) F.

Definition col4 (Fout m : nat) (j x : nat) : Prop :=
  x = Fout + j \/ x = Fout + j + m \/ x = Fout + j + 2 * m \/ x = Fout + j + 3 * m.

Definition body5 (tw : buf) (ya yb : kiss_fft_cpx) (fstride Fout m : nat)
  (j : nat) (F : buf) : buf :=
  bfly5_loop 1 tw ya yb fstride j (Fout + j) (Fout + m + j) (Fout + 2 * m + j)
    (Fout + 3 * m + j) (Fout + 4 * m + j) F.

Definition col5 (Fout m : nat) (j x : nat) : Prop :=
  x = Fout + j \/ x = Fout + m + j \/ x = Fout + 2 * m + j \/
  x = Fout + 3 * m + j \/ x = Fout + 4 * m + j.

(** The value of [twidx] after [q] passes for output position [k]. *)
Definition twidx_at (fstride Norig k q : nat) : Z :=
  Nat.iter q (twidx_step fstride Norig k) 0%Z.

(** What the accumulation loop computes for position [k] from the gathered
    values [x 0 .. x (p-1)], in the order it adds them. *)
Definition generic_raw (tw : buf) (fstride Norig : nat) (x : nat -> kiss_fft_cpx)
  (k p : nat) : kiss_fft_cpx :=
  fold_left
    (fun acc q => C_ADDTO acc (C_MUL (x q) (tw_read tw (twidx_at fstride Norig k q))))
    (seq 1 (p - 1)) (x 0).

(** The sum the generic butterfly leaves at output position [k] of a block,
    [x q] being the value of the [q]-th sub-transform in its column. *)
Definition generic_output (tw : buf) (fstride Norig : nat) (x : nat -> kiss_fft_cpx)
  (k p : nat) : kiss_fft_cpx :=
  fold_left
    (fun acc q => C_ADDTO acc (C_MUL (x q) (tw ((fstride * k * q) mod Norig))))
    (seq 1 (p - 1)) (x 0).

(** The same sum with the first term written as a product too: the sum over
    all [p] values of [x q] times [twiddle[(fstride * k * q) mod Norig]]. *)
Definition generic_sum (tw : buf) (fstride Norig : nat) (x : nat -> kiss_fft_cpx)
  (k p : nat) : kiss_fft_cpx :=
  fold_left
    (fun acc q => C_ADDTO acc (C_MUL (x q) (tw ((fstride * k * q) mod Norig))))
    (seq 1 (p - 1)) (C_MUL (x 0) (tw ((fstride * k * 0) mod Norig))).

(** A factor buffer that describes a block of [len] samples. *)
Fixpoint plan_ok (len : nat) (fs : list (nat * nat)) : Prop :=
  match fs with
  | [] => False
  | (p, m) :: fs' => p * m = len /\ 1 <= p /\ (m = 1 \/ (2 <= m /\ plan_ok m fs'))
  end.

(** The heap a call leaves, when it returns. *)
Definition heap_of (o : outcome) : option heap :=
  match o with
  | Done h => Some h
  | Failed _ h => Some h
  | Fault => None
  end.

End WithGuts.
End Engine.

(** ** An exact backend

    Gaussian integers, with the roots of unity of the lengths 1, 2 and 4
    (1, -1, i, -i) and zero for every other phase; [alloc] says whether the
    temporary allocator succeeds. *)

Module Exact.
Import Engine.
Local Open Scope Z_scope.

Definition ZGuts : KissGuts :=
  {| kiss_fft_scalar := Z;
     s_add := Z.add; s_sub := Z.sub; s_neg := Z.opp; S_MUL := Z.mul;
     HALF_OF := fun x => x / 2;
     phase := Z * Z;
     twiddle_phase := fun i n => (- Z.of_nat i, n);
     phase_neg := fun ph => (- fst ph, snd ph) |}.

#[local] Existing Instance ZGuts.

Definition zcpx (a b : Z) : @kiss_fft_cpx ZGuts := @mk_cpx ZGuts a b.

Definition z_cexp (ph : Z * Z) : @kiss_fft_cpx ZGuts :=
  let (a, b) := ph in
  if (4 * a) mod b =? 0 then
    match (4 * a / b) mod 4 with
    | 0 => zcpx 1 0
    | 1 => zcpx 0 1
    | 2 => zcpx (-1) 0
    | _ => zcpx 0 (-1)
    end
  else zcpx 0 0.

Definition ZMacros (alloc : bool) : @KissMacros ZGuts :=
  {| C_MUL := fun a b => zcpx (r a * r b - i a * i b) (r a * i b + i a * r b);
     C_ADD := fun a b => zcpx (r a + r b) (i a + i b);
     C_SUB := fun a b => zcpx (r a - r b) (i a - i b);
     C_ADDTO := fun a b => zcpx (r a + r b) (i a + i b);
     C_MULBYSCALAR := fun a x => zcpx (r a * x) (i a * x);
     kf_cexp := z_cexp;
     KISS_FFT_TMP_ALLOC := fun _ => if alloc then Some (fun _ => zcpx 0 0) else None;
     stray := fun _ => zcpx 0 0 |}.

(** A buffer holding the listed samples, zero beyond them. *)
Definition zbuf (l : list (Z * Z)) : @buf ZGuts :=
  fun k => let ab := nth k l (0, 0) in zcpx (fst ab) (snd ab).

(** The first [n] samples of a buffer. *)
Definition zread (n : nat) (F : @buf ZGuts) : list (Z * Z) :=
  map (fun k => (r (F k), i (F k))) (seq 0 n).

(** Sample data: plans of length 1, 4 and 7 as [kiss_fft_alloc] builds them
    in an all-zero block, a buffer of seven samples, and a heap whose blocks
    all hold it. *)
Definition plan_of (alloc : bool) (n : nat) (fs : list (nat * nat))
  : @kiss_fft_state ZGuts :=
  @mk_state ZGuts n false fs
    (@twiddle_loop ZGuts (ZMacros alloc) n (Z.of_nat n) false 0 (zbuf [])).

Definition plan1 (alloc : bool) := plan_of alloc 1 [(1, 1)%nat].
Definition plan4 (alloc : bool) := plan_of alloc 4 [(4, 1)%nat].
Definition plan7 (alloc : bool) := plan_of alloc 7 [(7, 1)%nat].

Definition samples : @buf ZGuts :=
  zbuf [(1, 0); (2, -1); (0, 3); (-4, 1); (5, 5); (0, -2); (7, 0)].

Definition heap0 : @heap ZGuts := fun _ => samples.

End Exact.

(** ** A modular backend

    The field F_839[i]: 839 is a prime congruent to 3 modulo 4, so i^2 = -1
    gives a field, and its elements of norm 1 form a cyclic group of order
    840 generated by 10 + 64 i.  For every length dividing 840 the roots of
    unity exist exactly, with the conjugation, the halves and the quarter
    turns the butterflies rely on, and the transform can be run next to the
    defining sum of the DFT. *)

Module Modular.
Import Engine.
Local Open Scope Z_scope.

Definition P : Z := 839.

Definition FGuts : KissGuts :=
  {| kiss_fft_scalar := Z;
     s_add := fun a b => (a + b) mod P;
     s_sub := fun a b => (a - b) mod P;
     s_neg := fun a => (- a) mod P;
     S_MUL := fun a b => (a * b) mod P;
     HALF_OF := fun x => (x * 420) mod P;
     phase := Z * Z;
     twiddle_phase := fun i n => (- Z.of_nat i, n);
     phase_neg := fun ph => (- fst ph, snd ph) |}.

#[local] Existing Instance FGuts.

Definition fcpx (a b : Z) : @kiss_fft_cpx FGuts := @mk_cpx FGuts (a mod P) (b mod P).

Definition fmul (a b : @kiss_fft_cpx FGuts) : @kiss_fft_cpx FGuts :=
  fcpx (r a * r b - i a * i b) (r a * i b + i a * r b).

Fixpoint fpow (g : @kiss_fft_cpx FGuts) (n : nat) : @kiss_fft_cpx FGuts :=
  match n with
  | O => fcpx 1 0
  | S n' => fmul g (fpow g n')
  end.

(** The point of the unit circle at the phase 2 pi a / n, for n dividing 840. *)
Definition f_cexp (ph : Z * Z) : @kiss_fft_cpx FGuts :=
  let (a, n) := ph in fpow (fcpx 10 64) (Z.to_nat ((a * (840 / n)) mod 840)).

Definition FMacros : @KissMacros FGuts :=
  {| C_MUL := fmul;
     C_ADD := fun a b => fcpx (r a + r b) (i a + i b);
     C_SUB := fun a b => fcpx (r a - r b) (i a - i b);
     C_ADDTO := fun a b => fcpx (r a + r b) (i a + i b);
     C_MULBYSCALAR := fun a x => fcpx (r a * x) (i a * x);
     kf_cexp := f_cexp;
     KISS_FFT_TMP_ALLOC := fun _ => Some (fun _ => fcpx 0 0);
     stray := fun _ => fcpx 0 0 |}.

#[local] Existing Instance FMacros.

Definition fbuf (l : list (Z * Z)) : @buf FGuts :=
  fun k => let ab := nth k l (0, 0) in fcpx (fst ab) (snd ab).

Definition fread (n : nat) (F : @buf FGuts) : list (Z * Z) :=
  map (fun k => (r (F k), i (F k))) (seq 0 n).

(** The forward plan of length [n] with the factor buffer [fs], its table
    filled as [kiss_fft_alloc] fills it in an all-zero block. *)
Definition fplan (n : nat) (fs : list (nat * nat)) : @kiss_fft_state FGuts :=
  @mk_state FGuts n false fs
    (@twiddle_loop FGuts FMacros n (Z.of_nat n) false 0 (fbuf [])).

(** Build a plan for [n], then [kiss_fft] from block 0 holding [x] into
    block 1. *)
Definition transform (n : Z) (inverse_fft : Z) (x : list (Z * Z))
  : option (list (Z * Z)) :=
  match kiss_fft_alloc n inverse_fft (Some (fbuf [])) with
  | Some st =>
      match kiss_fft st (Some 0%nat) (Some 1%nat)
              (fun b => if Nat.eqb b 0 then fbuf x else fbuf []) with
      | Done h => Some (fread (Z.to_nat n) (h 1%nat))
      | _ => None
      end
  | None => None
  end.

(** The defining sum: X[k] = sum over j of x[j] * exp(-+ 2 pi i j k / n). *)
Definition dft (n : nat) (inv : bool) (x : list (Z * Z)) : list (Z * Z) :=
  map (fun k =>
         let s :=
           fold_left
             (fun acc j =>
                let w := f_cexp ((if inv then 1 else -1) * Z.of_nat (j * k), Z.of_nat n) in
                let t := fmul (fbuf x j) w in
                fcpx (r acc + r t) (i acc + i t))
             (seq 0 n) (fcpx 0 0) in
         (r s, i s))
      (seq 0 n).

(** Sample input of length [n], and a list of samples times [c]. *)
Definition ramp (n : nat) : list (Z * Z) :=
  map (fun k => ((Z.of_nat k * 7 + 3) mod P, (Z.of_nat k * Z.of_nat k + 5) mod P))
    (seq 0 n).

Definition scaled (c : Z) (x : list (Z * Z)) : list (Z * Z) :=
  map (fun ab => ((c * fst ab) mod P, (c * snd ab) mod P)) x.

End Modular.

(** ** Packing four signals into SSE lanes *)

Module SSETools.
Local Open Scope nat_scope.

Section Lanes.
Variable float : Type.

(** A [float *] array, addressed from its first element. *)
Definition farray : Type := nat -> float.

Definition fupd (a : farray) (k : nat) (v : float) : farray :=
  fun j => if Nat.eqb j k then v else a j.

(** [pDest[d] = _mm_set_ps(e3, e2, e1, e0)] for [__m128 * pDest] at the
    start of [target]: the four floats 4d .. 4d+3, [e0] in the lowest lane. *)
Definition store_ps (target : farray) (d : nat) (e3 e2 e1 e0 : float) : farray :=
  fupd (fupd (fupd (fupd target (4 * d) e0) (4 * d + 1) e1) (4 * d + 2) e2)
    (4 * d + 3) e3.

(** The [while (pDest < pDestEnd)] loop of [SSETools_pack_2_128_complex];
    each source pointer is the position it points at in its own array. *)
Fixpoint pack_complex_loop (fuel : nat) (fft_0 fft_1 fft_2 fft_3 : farray)
  (pDest pDestEnd : nat) (r0 r1 r2 r3 i0 i1 i2 i3 : nat) (target : farray) : farray :=
  if pDest <? pDestEnd then
    match fuel with
    | O => target
    | S fuel' =>
        let target := store_ps target pDest (fft_3 r3) (fft_2 r2) (fft_1 r1) (fft_0 r0) in
        let r0 := r0 + 2 in
        let r1 := r1 + 2 in
        let r2 := r2 + 2 in
        let r3 := r3 + 2 in
        let pDest := pDest + 1 in
        let target := store_ps target pDest (fft_3 i3) (fft_2 i2) (fft_1 i1) (fft_0 i0) in
        let i0 := i0 + 2 in
        let i1 := i1 + 2 in
        let i2 := i2 + 2 in
        let i3 := i3 + 2 in
        let pDest := pDest + 1 in
        pack_complex_loop fuel' fft_0 fft_1 fft_2 fft_3 pDest pDestEnd
          r0 r1 r2 r3 i0 i1 i2 i3 target
    end
  else target.

Definition SSETools_pack_2_128_complex (target : farray)
  (source_fft_0 source_fft_1 source_fft_2 source_fft_3 : farray)
  (num_elem_fft : nat) : farray :=
  pack_complex_loop num_elem_fft source_fft_0 source_fft_1 source_fft_2 source_fft_3
    0 (0 + num_elem_fft * 2) 0 0 0 0 (0 + 1) (0 + 1) (0 + 1) (0 + 1) target.

(** The four target arrays of the unpacking. *)
Record quad : Type := mk_quad { q0 : farray; q1 : farray; q2 : farray; q3 : farray }.

(** The [while (pSrc < pSrcEnd)] loop of [SSETools_unpack_2_128_complex];
    [t0 .. t3] are the four target arrays. *)
Fixpoint unpack_complex_loop (fuel : nat) (source : farray)
  (pSrc pSrcEnd : nat) (r0 r1 r2 r3 i0 i1 i2 i3 : nat)
  (t0 t1 t2 t3 : farray) : quad :=
  if pSrc <? pSrcEnd then
    match fuel with
    | O => mk_quad t0 t1 t2 t3
    | S fuel' =>
        let t0 := fupd t0 r0 (source (pSrc + 0)) in
        let t1 := fupd t1 r1 (source (pSrc + 1)) in
        let t2 := fupd t2 r2 (source (pSrc + 2)) in
        let t3 := fupd t3 r3 (source (pSrc + 3)) in
        let r0 := r0 + 2 in
        let r1 := r1 + 2 in
        let r2 := r2 + 2 in
        let r3 := r3 + 2 in
        let pSrc := pSrc + 4 in
        let t0 := fupd t0 i0 (source (pSrc + 0)) in
        let t1 := fupd t1 i1 (source (pSrc + 1)) in
        let t2 := fupd t2 i2 (source (pSrc + 2)) in
        let t3 := fupd t3 i3 (source (pSrc + 3)) in
        let i0 := i0 + 2 in
        let i1 := i1 + 2 in
        let i2 := i2 + 2 in
        let i3 := i3 + 2 in
        let pSrc := pSrc + 4 in
        unpack_complex_loop fuel' source pSrc pSrcEnd r0 r1 r2 r3 i0 i1 i2 i3
          t0 t1 t2 t3
    end
  else mk_quad t0 t1 t2 t3.

Definition SSETools_unpack_2_128_complex
  (target_fft_0 target_fft_1 target_fft_2 target_fft_3 : farray)
  (source : farray) (num_elem_fft : nat) : quad :=
  unpack_complex_loop num_elem_fft source 0 (0 + num_elem_fft * 4 * 2)
    0 0 0 0 (0 + 1) (0 + 1) (0 + 1) (0 + 1)
    target_fft_0 target_fft_1 target_fft_2 target_fft_3.

(** The loop of [SSETools_pack128]: the four source pointers walk one array. *)
Fixpoint pack128_loop (fuel : nat) (source : farray) (pDest pDestEnd : nat)
  (source0 source1 source2 source3 : nat) (target : farray) : farray :=
  if pDest <? pDestEnd then
    match fuel with
    | O => target
    | S fuel' =>
        let target :=
          store_ps target pDest (source source3) (source source2)
            (source source1) (source source0) in
        pack128_loop fuel' source (pDest + 1) pDestEnd
          (source0 + 1) (source1 + 1) (source2 + 1) (source3 + 1) target
    end
  else target.

Definition SSETools_pack128 (target source : farray) (size128 : nat) : farray :=
  let source0 := 0 in
  let source1 := source0 + size128 in
  let source2 := source1 + size128 in
  let source3 := source2 + size128 in
  pack128_loop size128 source 0 (0 + size128) source0 source1 source2 source3 target.

(** The loop of [SSETools_unpack128]. *)
Fixpoint unpack128_loop (fuel : nat) (source : farray) (pSrc pSrcEnd : nat)
  (target0 target1 target2 target3 : nat) (target : farray) : farray :=
  if pSrc <? pSrcEnd then
    match fuel with
    | O => target
    | S fuel' =>
        let target := fupd target target0 (source (pSrc + 0)) in
        let target := fupd target target1 (source (pSrc + 1)) in
        let target := fupd target target2 (source (pSrc + 2)) in
        let target := fupd target target3 (source (pSrc + 3)) in
        unpack128_loop fuel' source (pSrc + 4) pSrcEnd
          (target0 + 1) (target1 + 1) (target2 + 1) (target3 + 1) target
    end
  else target.

Definition SSETools_unpack128 (target source : farray) (size128 : nat) : farray :=
  let target0 := 0 in
  let target1 := target0 + size128 in
  let target2 := target1 + size128 in
  let target3 := target2 + size128 in
  unpack128_loop size128 source 0 (0 + size128 * 4) target0 target1 target2 target3 target.

End Lanes.
End SSETools.

(** * Results *)

(** ** C integers *)

Module CIntFacts.
Import CInt.
Local Open Scope Z_scope.

Lemma wrap_int_id z : INT_MIN <= z <= INT_MAX -> wrap_int z = z.
Proof.
  unfold INT_MIN, INT_MAX, wrap_int. intros H.
  rewrite Z.mod_small by lia. lia.
Qed.

(** C's truncating operators agree with the flooring ones on the
    non-negative values the factorizer handles. *)
Lemma rem_zero_divide n p : 0 <= n -> 0 < p -> (Z.rem n p = 0 <-> (p | n)).
Proof.
  intros Hn Hp. rewrite Z.rem_mod_nonneg by lia.
  apply Z.mod_divide. lia.
Qed.

Lemma quot_exact n p : 0 <= n -> 0 < p -> (p | n) -> p * Z.quot n p = n.
Proof.
  intros Hn Hp [k ->]. rewrite Z.quot_mul by lia. lia.
Qed.

Lemma divide_quot d n p : 0 < p -> (p | n) -> (d | Z.quot n p) -> (d | n).
Proof.
  intros Hp [k ->] Hd. rewrite Z.quot_mul in Hd by lia.
  apply Z.divide_mul_l. exact Hd.
Qed.

Lemma log2_halved n n' : 1 <= n' -> 2 * n' <= n -> Z.log2 n' < Z.log2 n.
Proof.
  intros H1 H2.
  assert (Hs : 2 ^ Z.log2 n' <= n') by (apply Z.log2_spec; lia).
  assert (Hl : 0 <= Z.log2 n') by apply Z.log2_nonneg.
  assert (Hp : 2 ^ (Z.log2 n' + 1) <= n).
  { rewrite Z.pow_add_r by lia. change (2 ^ 1) with 2. lia. }
  apply Z.log2_le_pow2 in Hp; lia.
Qed.

End CIntFacts.

(** ** The factorizer *)

Module FactorFacts.
Import CInt CIntFacts Factor.
Local Open Scope Z_scope.

Lemma trial_ok_pos fs p : trial_ok fs p -> 2 <= p.
Proof. unfold trial_ok. lia. Qed.

Lemma odd_succ_even p : Z.odd p = true -> (2 | p + 1).
Proof.
  intros H. rewrite (Zodd_div2 p) by (apply Zodd_bool_iff; exact H).
  exists (Z.div2 p + 1). lia.
Qed.

(** Advancing past a trial that does not divide keeps the sieve. *)
Lemma sieved_next n p fs0 :
  0 <= fs0 <= 46340 -> trial_ok fs0 p -> sieved p n -> ~ (p | n) ->
  sieved (next_trial p) n /\ next_trial p <> 4 /\ 2 <= next_trial p /\
  rank p <= rank (next_trial p) /\
  (forall fs, next_trial p <= fs -> trial_ok fs (next_trial p)).
Proof.
  intros Hfs Hok Hs Hnd. unfold next_trial.
  destruct Hok as [-> | [[-> H2] | [H3 Hodd]]]; simpl.
  - split; [| split; [lia | split; [lia | split; [unfold rank; simpl; lia |]]]].
    + intros _. split; [exact Hnd | intros d Hd; lia].
    + intros fs H. unfold trial_ok. lia.
  - destruct (Hs ltac:(lia)) as [H4 _].
    split; [| split; [lia | split; [lia | split; [unfold rank; simpl; lia |]]]].
    + intros _. split; [exact H4 |].
      intros d Hd. assert (d = 2) by lia. subst. exact Hnd.
    + intros fs H. unfold trial_ok. right; right. split; [lia | reflexivity].
  - destruct (Z.eqb_spec p 4) as [-> | N4]; [discriminate |].
    destruct (Z.eqb_spec p 2) as [-> | N2]; [discriminate |].
    rewrite wrap_int_id by (unfold INT_MIN, INT_MAX; lia).
    destruct (Hs N4) as [H4 Hd].
    assert (Hodd2 : Z.odd (p + 2) = true).
    { rewrite Z.odd_add, Hodd. reflexivity. }
    assert (N4' : p + 2 <> 4).
    { intros E. assert (p = 2) by lia. contradiction. }
    split; [| split; [exact N4' | split; [lia | split]]].
    + intros _. split; [exact H4 |].
      intros d Hr Hdn.
      destruct (Z_lt_ge_dec d p) as [Hlt | Hge]; [apply (Hd d); [lia | exact Hdn] |].
      destruct (Z.eq_dec d p) as [-> | Hne]; [contradiction |].
      assert (d = p + 1) by lia. subst d.
      apply (Hd 2); [lia |].
      eapply Z.divide_trans; [apply odd_succ_even; exact Hodd | exact Hdn].
    + unfold rank. destruct (Z.eqb_spec p 4); destruct (Z.eqb_spec (p + 2) 4); lia.
    + intros fs Hle. unfold trial_ok. right; right. split; [lia | exact Hodd2].
Qed.

(** With nothing below [q] dividing [n] and [q] beyond the square root,
    [n] is prime. *)
Lemma sieved_prime n q fs :
  2 <= n -> 0 <= fs -> n < (fs + 1) * (fs + 1) -> fs < q -> q <> 4 ->
  sieved q n -> Z.prime n.
Proof.
  intros Hn Hfs Hsq Hq N4 Hs. destruct (Hs N4) as [_ Hd].
  split; [lia |].
  intros d Hr Hdn.
  destruct (Z_lt_ge_dec d q) as [Hlt | Hge]; [apply (Hd d); [lia | exact Hdn] |].
  destruct Hdn as [e He].
  assert (He2 : 2 <= e) by nia.
  assert (Helt : e < q) by nia.
  apply (Hd e); [lia |]. exists d. lia.
Qed.

Lemma trial_measure_next fs p :
  0 <= fs <= 46340 -> trial_ok fs p ->
  1 <= trial_measure fs p /\
  trial_measure fs (next_trial p) + 1 <= trial_measure fs p.
Proof.
  intros Hfs [-> | [[-> H2] | [H3 Hodd]]]; unfold trial_measure, next_trial; simpl;
    try lia.
  destruct (Z.eqb_spec p 4) as [-> | N4]; [discriminate |].
  destruct (Z.eqb_spec p 2) as [-> | N2]; [discriminate |].
  rewrite wrap_int_id by (unfold INT_MIN, INT_MAX; lia).
  destruct (Z.eqb_spec (p + 2) 4); destruct (Z.eqb_spec (p + 2) 2); lia.
Qed.

Lemma rank_nonneg p : 0 < p -> 0 <= rank p.
Proof. unfold rank. destruct (p =? 4); lia. Qed.

(** The remaining length is never below the trial it is sieved by. *)
Lemma sieved_rank p n : 2 <= n -> 2 <= p -> sieved p n -> rank p <= rank n.
Proof.
  intros Hn Hp Hs. unfold rank at 1.
  destruct (Z.eqb_spec p 4) as [-> | N4]; [apply rank_nonneg; lia |].
  destruct (Hs N4) as [H4 Hd]. unfold rank.
  destruct (Z.eqb_spec n 4) as [-> | _]; [exfalso; apply H4; apply Z.divide_refl |].
  destruct (Z_lt_ge_dec n p) as [Hlt | Hge]; [| lia].
  exfalso. apply (Hd n); [lia | apply Z.divide_refl].
Qed.

(** The inner loop ends, and [step_ok] relates its two ends. *)
Lemma kf_factor_trial_spec fuel : forall fs n p,
  1 <= n -> 0 <= fs <= 46340 -> n < (fs + 1) * (fs + 1) ->
  trial_ok fs p -> sieved p n ->
  trial_measure fs p <= Z.of_nat fuel ->
  exists p', kf_factor_trial fuel fs n p = Some p' /\ step_ok fs n p p'.
Proof.
  induction fuel as [| fuel IH]; intros fs n p Hn Hfs Hsq Hok Hs Hm;
    pose proof (trial_ok_pos _ _ Hok) as Hp;
    destruct (trial_measure_next fs p Hfs Hok) as [Hm1 Hdec];
    simpl; destruct (Z.eqb_spec (Z.rem n p) 0) as [Hz | Hnz].
  - exists p. split; [reflexivity |]. unfold step_ok.
    split; [apply rem_zero_divide; lia |]. split; [lia |]. split; [lia |]. left; auto.
  - lia.
  - exists p. split; [reflexivity |]. unfold step_ok.
    split; [apply rem_zero_divide; lia |]. split; [lia |]. split; [lia |]. left; auto.
  - assert (Hnd : ~ (p | n)).
    { intros Hd. apply Hnz. apply rem_zero_divide; [lia | lia | exact Hd]. }
    destruct (sieved_next n p fs Hfs Hok Hs Hnd) as (Hs' & N4 & Hq2 & Hrk & Hok').
    destruct (Z.gtb_spec (next_trial p) fs) as [Hgt | Hle].
    + assert (E : kf_factor_trial fuel fs n n = Some n).
      { destruct fuel; simpl; rewrite Z.rem_same by lia; reflexivity. }
      exists n. split; [exact E |]. unfold step_ok.
      split; [apply Z.divide_refl |]. split; [lia |]. split.
      * intros Hn2. apply sieved_rank; assumption.
      * right. split; [reflexivity |].
        destruct (Z.eq_dec n 1) as [-> | Hne]; [left; reflexivity | right].
        apply (sieved_prime n (next_trial p) fs); try assumption; lia.
    + destruct (IH fs n (next_trial p)) as (p' & E & Hstep); try assumption.
      * apply Hok'; exact Hle.
      * lia.
      * exists p'. split; [exact E |].
        destruct Hstep as (Hd & Hpos & Hr & Hcase).
        unfold step_ok. repeat split; try assumption.
        intros Hn2. specialize (Hr Hn2). lia.
Qed.

Lemma sieved_quot p n p' : 0 < p' -> (p' | n) -> sieved p n -> sieved p (Z.quot n p').
Proof.
  intros Hp Hd Hs N4. destruct (Hs N4) as [H4 Hdiv]. split.
  - intros H. apply H4. eapply divide_quot; eassumption.
  - intros d Hr H. apply (Hdiv d Hr). eapply divide_quot; eassumption.
Qed.

Lemma trial_measure_le fs p :
  0 <= fs -> trial_ok fs p -> trial_measure fs p <= Z.of_nat (trial_fuel fs).
Proof.
  intros Hfs Hok. unfold trial_fuel. rewrite Nat2Z.inj_add, Z2Nat.id by lia.
  unfold trial_measure.
  destruct Hok as [-> | [[-> H2] | [H3 Hodd]]]; simpl; try lia.
  destruct (Z.eqb_spec p 4); destruct (Z.eqb_spec p 2); lia.
Qed.

(** The outer loop ends within its fuel and writes an [emits] sequence. *)
Lemma kf_factor_loop_spec fuel : forall fs n p,
  1 <= n -> 0 <= fs <= 46340 -> n < (fs + 1) * (fs + 1) ->
  trial_ok fs p -> sieved p n ->
  Z.log2 n < Z.of_nat fuel ->
  exists l, kf_factor_loop fuel fs n p = Some l /\ emits fs n p l.
Proof.
  induction fuel as [| fuel IH]; intros fs n p Hn Hfs Hsq Hok Hs Hlog.
  - pose proof (Z.log2_nonneg n). lia.
  - simpl.
    destruct (kf_factor_trial_spec (trial_fuel fs) fs n p) as (p' & E & Hstep);
      try assumption.
    { apply trial_measure_le; [lia | exact Hok]. }
    rewrite E.
    destruct (Z.gtb_spec (Z.quot n p') 1) as [Hgt | Hle].
    + pose proof Hstep as (Hd & Hpos & Hr & Hcase).
      destruct Hcase as [[Hok' Hs'] | [-> _]];
        [| rewrite Z.quot_same in Hgt by lia; lia].
      pose proof (quot_exact n p' ltac:(lia) Hpos Hd) as Hex.
      pose proof (trial_ok_pos _ _ Hok') as Hp2.
      destruct (IH fs (Z.quot n p') p') as (l & El & Hem); try assumption.
      * lia.
      * nia.
      * apply sieved_quot; assumption.
      * assert (Z.log2 (Z.quot n p') < Z.log2 n) by (apply log2_halved; nia).
        lia.
      * rewrite El. simpl. eexists. split; [reflexivity |].
        apply emits_more; assumption.
    + eexists. split; [reflexivity |]. apply emits_last; assumption.
Qed.

Lemma sqrt_int_bound N : 0 <= N <= INT_MAX -> 0 <= Z.sqrt N <= 46340.
Proof.
  intros H. split; [apply Z.sqrt_nonneg |].
  change 46340 with (Z.sqrt INT_MAX). apply Z.sqrt_le_mono. lia.
Qed.

(** [kf_factor] returns for every positive [int]. *)
Lemma kf_factor_emits N :
  1 <= N <= INT_MAX ->
  exists l, kf_factor N = Some l /\ emits (floor_sqrt N) N 4 l.
Proof.
  intros H. unfold kf_factor, floor_sqrt.
  apply kf_factor_loop_spec.
  - lia.
  - apply sqrt_int_bound. lia.
  - pose proof (Z.sqrt_spec N ltac:(lia)) as Hs. cbv zeta in Hs.
    unfold Z.succ in Hs. lia.
  - left. reflexivity.
  - intros N4. contradiction.
  - rewrite Nat2Z.inj_succ, Z2Nat.id by apply Z.log2_nonneg. lia.
Qed.

(** What an [emits] sequence satisfies. *)
Lemma emits_chain fs n p l :
  emits fs n p l -> 1 <= n ->
  l <> [] /\ radix_product l = n /\ factor_chain n l.
Proof.
  induction 1 as [n p p' Hstep Hle | n p p' l Hstep Hgt Hem IH]; intros Hn;
    destruct Hstep as (Hd & Hpos & _);
    pose proof (quot_exact n p' ltac:(lia) Hpos Hd) as Hex.
  - assert (Hq : Z.quot n p' = 1) by nia.
    split; [discriminate |]. unfold radix_product. simpl.
    rewrite Hq in *. repeat split; lia.
  - destruct (IH ltac:(lia)) as (_ & Hprod & Hch).
    split; [discriminate |]. unfold radix_product in *. simpl.
    rewrite Hprod. repeat split; try lia. exact Hch.
Qed.

Lemma step_ok_radix fs n p p' :
  2 <= n -> step_ok fs n p p' -> p' = 4 \/ Z.prime p'.
Proof.
  intros Hn (Hd & Hpos & _ & [[Hok Hs] | [-> [-> | Hpr]]]).
  - destruct (Z.eq_dec p' 4) as [-> | N4]; [left; reflexivity | right].
    pose proof (trial_ok_pos _ _ Hok) as Hp2.
    destruct (Hs N4) as [_ Hdiv].
    split; [lia |].
    intros d Hr Hdp. apply (Hdiv d); [lia |].
    eapply Z.divide_trans; eassumption.
  - lia.
  - right. exact Hpr.
Qed.

Lemma step_ok_final fs n p p' :
  2 <= n -> step_ok fs n p p' -> p' <> 4 ->
  fs < p' \/ Z.sqrt (p' * Z.quot n p') < p' -> Z.quot n p' = 1.
Proof.
  intros Hn (Hd & Hpos & _ & Hcase) N4 Hbig.
  destruct Hcase as [[Hok Hs] | [-> _]]; [| apply Z.quot_same; lia].
  pose proof (quot_exact n p' ltac:(lia) Hpos Hd) as Hex.
  pose proof (trial_ok_pos _ _ Hok) as Hp2.
  destruct (Hs N4) as [_ Hdiv].
  destruct (Z.eq_dec (Z.quot n p') 1) as [E | Hne]; [exact E | exfalso].
  assert (Hq2 : 2 <= Z.quot n p') by nia.
  assert (Hqp : p' <= Z.quot n p').
  { destruct (Z_lt_ge_dec (Z.quot n p') p') as [Hlt | Hge]; [| lia].
    exfalso. apply (Hdiv (Z.quot n p')); [lia |]. exists p'. lia. }
  destruct Hbig as [Hfs | Hsq].
  - unfold trial_ok in Hok. lia.
  - assert (p' <= Z.sqrt (p' * Z.quot n p')); [| lia].
    apply Z.sqrt_le_square; nia.
Qed.

Lemma emits_early_stop fs n p l :
  emits fs n p l -> 2 <= n ->
  trial_sorted p l /\
  Forall (fun pm => fst pm = 4 \/ Z.prime (fst pm)) l /\
  Forall (fun pm => fst pm <> 4 ->
            fs < fst pm \/ Z.sqrt (fst pm * snd pm) < fst pm -> snd pm = 1) l.
Proof.
  induction 1 as [n p p' Hstep Hle | n p p' l Hstep Hgt Hem IH]; intros Hn.
  - split; [simpl; split; [apply Hstep; exact Hn | exact I] |].
    split; (constructor; [simpl | constructor]).
    + eapply step_ok_radix; eassumption.
    + intros N4 Hbig. eapply step_ok_final; eassumption.
  - destruct (IH ltac:(lia)) as (Hsort & Hrad & Hfin).
    split; [simpl; split; [apply Hstep; exact Hn | exact Hsort] |].
    split; (constructor; [simpl | assumption]).
    + eapply step_ok_radix; eassumption.
    + intros N4 Hbig. eapply step_ok_final; eassumption.
Qed.

(** *** The bound taken from the remaining length *)

Lemma step_ok_emitted fs n p p' : step_ok fs n p p' -> emitted_by n p'.
Proof.
  intros (Hd & _ & _ & [[Hok Hs] | Hj]); split; try exact Hd.
  - left. split; [eapply trial_ok_pos; exact Hok | exact Hs].
  - right. exact Hj.
Qed.

(** The divisor the inner loop stops at depends on the remaining length
    only. *)
Lemma emitted_by_unique n p1 p2 :
  1 <= n -> emitted_by n p1 -> emitted_by n p2 -> p1 = p2.
Proof.
  assert (Hmix : forall a, 1 <= n -> (a | n) -> 2 <= a -> n = 1 \/ Z.prime n -> a = n).
  { intros a Hn Ha H2 [-> | [H1 Hpr]].
    - apply Z.divide_pos_le in Ha; lia.
    - pose proof (Z.divide_pos_le a n ltac:(lia) Ha).
      destruct (Z.eq_dec a n) as [E | Hne]; [exact E | exfalso].
      apply (Hpr a); [lia | exact Ha]. }
  intros Hn [Hd1 [[H21 Hs1] | [-> Hj1]]] [Hd2 [[H22 Hs2] | [-> Hj2]]].
  - destruct (Z.eq_dec p1 4) as [-> | N1]; destruct (Z.eq_dec p2 4) as [-> | N2].
    + reflexivity.
    + exfalso. apply (Hs2 N2). exact Hd1.
    + exfalso. apply (Hs1 N1). exact Hd2.
    + destruct (Hs1 N1) as [_ Hdiv1]. destruct (Hs2 N2) as [_ Hdiv2].
      destruct (Z_lt_ge_dec p1 p2) as [Hlt | Hge].
      * exfalso. apply (Hdiv2 p1); [lia | exact Hd1].
      * destruct (Z.eq_dec p1 p2) as [E | Hne]; [exact E | exfalso].
        apply (Hdiv1 p2); [lia | exact Hd2].
  - apply Hmix; assumption.
  - symmetry. apply Hmix; assumption.
  - reflexivity.
Qed.

(** The inner loop run with the bound of the remaining length, from a [p]
    the outer loop can hold. *)
Lemma kf_factor_trial_remaining fs0 n p :
  1 <= n <= INT_MAX -> 0 <= fs0 <= 46340 -> trial_ok fs0 p -> sieved p n ->
  exists p', kf_factor_trial (trial_fuel (floor_sqrt n)) (floor_sqrt n) n p = Some p' /\
             emitted_by n p'.
Proof.
  intros Hn Hfs0 Hok Hs. unfold floor_sqrt.
  pose proof (sqrt_int_bound n ltac:(lia)) as Hfs.
  pose proof (Z.sqrt_spec n ltac:(lia)) as Hsq. cbv zeta in Hsq. unfold Z.succ in Hsq.
  pose proof (trial_ok_pos _ _ Hok) as Hp.
  set (fs := Z.sqrt n) in *.
  unfold trial_fuel. replace (Z.to_nat fs + 3)%nat with (S (Z.to_nat fs + 2)) by lia.
  cbn [kf_factor_trial].
  destruct (Z.eqb_spec (Z.rem n p) 0) as [Hz | Hnz].
  - exists p. split; [reflexivity |]. split.
    + apply rem_zero_divide; [lia | lia | exact Hz].
    + left. split; assumption.
  - assert (Hnd : ~ (p | n)).
    { intros Hd. apply Hnz. apply rem_zero_divide; [lia | lia | exact Hd]. }
    destruct (sieved_next n p fs0 Hfs0 Hok Hs Hnd) as (Hs' & N4 & Hq2 & _ & Hok').
    destruct (Z.gtb_spec (next_trial p) fs) as [Hgt | Hle].
    + exists n. split.
      * destruct (Z.to_nat fs + 2)%nat; simpl; rewrite Z.rem_same by lia; reflexivity.
      * split; [apply Z.divide_refl |]. right. split; [reflexivity |].
        destruct (Z.eq_dec n 1) as [-> | Hne]; [left; reflexivity | right].
        apply (sieved_prime n (next_trial p) fs); try assumption; lia.
    + destruct (kf_factor_trial_spec (Z.to_nat fs + 2) fs n (next_trial p))
        as (p' & E & Hstep); try assumption; try lia.
      * apply Hok'. exact Hle.
      * pose proof (Hok' fs Hle) as Hok2. unfold trial_measure.
        rewrite Nat2Z.inj_add, Z2Nat.id by lia.
        destruct Hok2 as [E4 | [[E2 _] | [H3 _]]];
          [contradiction | rewrite E2; simpl; lia |].
        destruct (Z.eqb_spec (next_trial p) 4); destruct (Z.eqb_spec (next_trial p) 2);
          lia.
      * exists p'. split; [exact E |]. eapply step_ok_emitted; exact Hstep.
Qed.

(** Taking the bound from the remaining length gives the same pairs. *)
Lemma kf_factor_loop_remaining_eq fuel : forall fs n p,
  1 <= n <= INT_MAX -> 0 <= fs <= 46340 -> n < (fs + 1) * (fs + 1) ->
  trial_ok fs p -> sieved p n ->
  Z.log2 n < Z.of_nat fuel ->
  kf_factor_loop_remaining fuel n p = kf_factor_loop fuel fs n p.
Proof.
  induction fuel as [| fuel IH]; intros fs n p Hn Hfs Hsq Hok Hs Hlog;
    [reflexivity |].
  cbn [kf_factor_loop_remaining kf_factor_loop].
  destruct (kf_factor_trial_spec (trial_fuel fs) fs n p) as (p1 & E1 & Hstep);
    try assumption; try lia.
  { apply trial_measure_le; [lia | exact Hok]. }
  destruct (kf_factor_trial_remaining fs n p Hn Hfs Hok Hs) as (p2 & E2 & Hem).
  assert (Ep : p2 = p1).
  { apply (emitted_by_unique n); [lia | exact Hem |].
    eapply step_ok_emitted; exact Hstep. }
  subst p2. rewrite E1, E2.
  destruct (Z.gtb_spec (Z.quot n p1) 1) as [Hgt | Hle]; [| reflexivity].
  destruct Hstep as (Hd & Hpos & _ & [[Hok' Hs'] | [-> _]]);
    [| rewrite Z.quot_same in Hgt by lia; lia].
  pose proof (quot_exact n p1 ltac:(lia) Hpos Hd) as Hex.
  pose proof (trial_ok_pos _ _ Hok') as Hp2.
  rewrite (IH fs (Z.quot n p1) p1); try assumption; try reflexivity.
  - nia.
  - nia.
  - apply sieved_quot; assumption.
  - assert (Z.log2 (Z.quot n p1) < Z.log2 n) by (apply log2_halved; nia). lia.
Qed.

Lemma kf_factor_remaining_eq N :
  1 <= N <= INT_MAX -> kf_factor_remaining N = kf_factor N.
Proof.
  intros H. unfold kf_factor_remaining, kf_factor, floor_sqrt.
  apply kf_factor_loop_remaining_eq.
  - exact H.
  - apply sqrt_int_bound. lia.
  - pose proof (Z.sqrt_spec N ltac:(lia)) as Hs. cbv zeta in Hs.
    unfold Z.succ in Hs. lia.
  - left. reflexivity.
  - intros N4. contradiction.
  - rewrite Nat2Z.inj_succ, Z2Nat.id by apply Z.log2_nonneg. lia.
Qed.

(** C3.  For every length N >= 1 that is an [int], [kf_factor] returns a
    non-empty sequence of (radix, remaining length) pairs: the product of
    the radices is N, the first pair has p * m = N, and every remaining
    length is the previous one divided by the radix taken at that step. *)
Theorem kf_factor_product_chain N :
  1 <= N <= INT_MAX ->
  exists l, kf_factor N = Some l /\ l <> [] /\
            radix_product l = N /\ factor_chain N l.
Proof.
  intros H. destruct (kf_factor_emits N H) as (l & E & Hem).
  exists l. split; [exact E |]. eapply emits_chain; [exact Hem | lia].
Qed.

Lemma kf_factor_product_chain_witness :
  exists l, kf_factor 360 = Some l /\ l <> [] /\
            radix_product l = 360 /\ factor_chain 360 l.
Proof.
  apply (kf_factor_product_chain 360). unfold INT_MAX. lia.
Defined.

(** C5, as the code has it.  For every [int] N >= 2 the radices come out in
    the trial order 4, 2, 3, 5, 7, ...; each is 4 or a prime; and a radix
    other than 4 that exceeds the floor of the square root of the original
    N (the bound the code computes once, before the loop) or of the length
    it is taken from is that whole length, so it is the final radix.  The
    first trial 4 is taken whenever it divides, without the comparison.
    Comparing with the bound of the remaining length instead, at the place
    where the code compares, gives the same pairs. *)
Theorem kf_factor_early_stop N :
  2 <= N <= INT_MAX ->
  exists l, kf_factor N = Some l /\
    kf_factor_remaining N = Some l /\
    trial_sorted 4 l /\
    Forall (fun pm => fst pm = 4 \/ Z.prime (fst pm)) l /\
    Forall (fun pm => fst pm <> 4 ->
              floor_sqrt N < fst pm \/ Z.sqrt (fst pm * snd pm) < fst pm ->
              snd pm = 1) l.
Proof.
  intros H. destruct (kf_factor_emits N ltac:(lia)) as (l & E & Hem).
  exists l. split; [exact E |].
  split; [rewrite kf_factor_remaining_eq by lia; exact E |].
  eapply emits_early_stop; [exact Hem | lia].
Qed.

Lemma kf_factor_early_stop_witness :
  exists l, kf_factor 14 = Some l /\
    kf_factor_remaining 14 = Some l /\
    trial_sorted 4 l /\
    Forall (fun pm => fst pm = 4 \/ Z.prime (fst pm)) l /\
    Forall (fun pm => fst pm <> 4 ->
              floor_sqrt 14 < fst pm \/ Z.sqrt (fst pm * snd pm) < fst pm ->
              snd pm = 1) l.
Proof.
  apply (kf_factor_early_stop 14). unfold INT_MAX. lia.
Defined.

(** C5 as the specification words it fails at N = 8: the trial value 4
    exceeds the floor of the square root of the remaining length 8, which
    is 2, yet 4 is written with remaining length 2, not 8 as the final
    radix. *)
Lemma kf_factor_8_not_remaining_sqrt :
  kf_factor 8 = Some [(4, 2); (2, 1)] /\
  ~ (exists l, kf_factor 8 = Some l /\ stops_at_remaining_sqrt l).
Proof.
  split; [reflexivity |].
  intros (l & E & Hstop).
  assert (El : l = [(4, 2); (2, 1)]) by (vm_compute in E; congruence).
  subst l. unfold stops_at_remaining_sqrt in Hstop.
  inversion Hstop as [| x l' H4 _]; subst.
  simpl in H4. specialize (H4 ltac:(vm_compute; reflexivity)). discriminate.
Qed.

End FactorFacts.

(** ** The length advisory *)

Module FastSizeFacts.
Import CInt CIntFacts FastSize.
Local Open Scope Z_scope.

Lemma prime_5 : Z.prime 5.
Proof.
  split; [lia |]. intros d Hr [k Hk].
  assert (Hd : d = 2 \/ d = 3 \/ d = 4) by lia.
  destruct Hd as [-> | [-> | ->]]; lia.
Qed.

Lemma prime_7 : Z.prime 7.
Proof.
  split; [lia |]. intros d Hr [k Hk].
  assert (Hd : d = 2 \/ d = 3 \/ d = 4 \/ d = 5 \/ d = 6) by lia.
  destruct Hd as [-> | [-> | [-> | [-> | ->]]]]; lia.
Qed.

(** Every number from 2 on has a prime divisor. *)
Lemma prime_divisor_exists n : 2 <= n -> exists q, Z.prime q /\ (q | n).
Proof.
  intros Hn. pattern n. revert Hn. apply (Zlt_lower_bound_ind _ 2). clear n.
  intros n IH Hn.
  destruct (prime_dec n) as [Hp | Hnp].
  - exists n. split; [apply prime_alt; exact Hp | apply Z.divide_refl].
  - destruct (not_prime_divide n ltac:(lia) Hnp) as (d & Hr & Hd).
    destruct (IH d ltac:(lia)) as (q & Hq & Hqd).
    exists q. split; [exact Hq | eapply Z.divide_trans; eassumption].
Qed.

(** One [while ((m % d) == 0) m /= d;] loop on a positive [m]. *)
Lemma strip_spec fuel : forall d m,
  2 <= d -> 1 <= m -> Z.log2 m < Z.of_nat fuel ->
  exists m' (k : nat),
    strip fuel d m = Some m' /\ 1 <= m' <= m /\ m = d ^ Z.of_nat k * m' /\ ~ (d | m').
Proof.
  induction fuel as [| fuel IH]; intros d m Hd Hm Hlog.
  - pose proof (Z.log2_nonneg m). lia.
  - simpl. destruct (Z.eqb_spec (Z.rem m d) 0) as [Hz | Hnz].
    + apply rem_zero_divide in Hz; [| lia | lia].
      pose proof (quot_exact m d ltac:(lia) ltac:(lia) Hz) as Hex.
      assert (Hq : 1 <= Z.quot m d) by nia.
      destruct (IH d (Z.quot m d) Hd Hq) as (m' & k & E & Hr & Hpow & Hnd).
      { assert (Z.log2 (Z.quot m d) < Z.log2 m) by (apply log2_halved; nia). lia. }
      exists m', (S k). split; [exact E |]. split; [nia |]. split; [| exact Hnd].
      rewrite Nat2Z.inj_succ, Z.pow_succ_r by lia.
      transitivity (d * Z.quot m d); [lia | rewrite Hpow at 1; ring].
    + exists m, O. split; [reflexivity |]. split; [lia |].
      split; [change (Z.of_nat 0) with 0; rewrite Z.pow_0_r; lia |].
      intros Hdiv. apply Hnz. apply rem_zero_divide; [lia | lia | exact Hdiv].
Qed.

Lemma only_235_smooth m : smooth235 m -> only_235 m.
Proof.
  intros (a & b & c & ->) q Hq Hdiv.
  apply (Z.divide_prime_mul _ _ q Hq) in Hdiv. destruct Hdiv as [Hdiv | Hdiv].
  - apply (Z.divide_prime_mul _ _ q Hq) in Hdiv. destruct Hdiv as [Hdiv | Hdiv].
    + left. apply (Z.divide_prime_pp q 2 (Z.of_nat a) Hq Z.prime_2); [lia | exact Hdiv].
    + right; left.
      apply (Z.divide_prime_pp q 3 (Z.of_nat b) Hq Z.prime_3); [lia | exact Hdiv].
  - right; right.
    apply (Z.divide_prime_pp q 5 (Z.of_nat c) Hq prime_5); [lia | exact Hdiv].
Qed.

(** The three loops in a row: what is left is 1 exactly for the fast
    lengths. *)
Lemma strip_235 fuel n :
  1 <= n -> Z.log2 n < Z.of_nat fuel ->
  exists m2 m3 m5,
    strip fuel 2 n = Some m2 /\ strip fuel 3 m2 = Some m3 /\
    strip fuel 5 m3 = Some m5 /\ 1 <= m5 /\
    (m5 = 1 -> smooth235 n) /\ (1 < m5 -> ~ only_235 n).
Proof.
  intros Hn Hlog.
  destruct (strip_spec fuel 2 n ltac:(lia) Hn Hlog) as (m2 & a & E2 & R2 & P2 & D2).
  assert (L2 : Z.log2 m2 < Z.of_nat fuel).
  { pose proof (Z.log2_le_mono m2 n ltac:(lia)). lia. }
  destruct (strip_spec fuel 3 m2 ltac:(lia) ltac:(lia) L2) as (m3 & b & E3 & R3 & P3 & D3).
  assert (L3 : Z.log2 m3 < Z.of_nat fuel).
  { pose proof (Z.log2_le_mono m3 m2 ltac:(lia)). lia. }
  destruct (strip_spec fuel 5 m3 ltac:(lia) ltac:(lia) L3) as (m5 & c & E5 & R5 & P5 & D5).
  exists m2, m3, m5. repeat (split; [assumption |]). split; [lia |]. split.
  - intros ->. exists a, b, c. rewrite P2, P3, P5. ring.
  - intros Hgt Honly.
    destruct (prime_divisor_exists m5 ltac:(lia)) as (q & Hq & Hqd).
    assert (H3 : (m5 | m3)) by (exists (5 ^ Z.of_nat c); lia).
    assert (H2 : (m3 | m2)) by (exists (3 ^ Z.of_nat b); lia).
    assert (Hn2 : (m2 | n)) by (exists (2 ^ Z.of_nat a); lia).
    assert (Hq3 : (q | m3)) by (eapply Z.divide_trans; eassumption).
    assert (Hq2 : (q | m2)) by (eapply Z.divide_trans; eassumption).
    assert (Hqn : (q | n)) by (eapply Z.divide_trans; eassumption).
    destruct (Honly q Hq Hqn) as [-> | [-> | ->]]; contradiction.
Qed.

Lemma MAX_FAST_smooth : smooth235 MAX_FAST.
Proof. exists 5%nat, 12%nat, 3%nat. reflexivity. Qed.

(** The loop of [kiss_fft_next_fast_size] from [n] on, [n] within the
    range where a fast length still fits an [int]. *)
Lemma next_fast_loop_spec (gap : nat) : forall n,
  1 <= n <= MAX_FAST -> MAX_FAST - n <= Z.of_nat gap ->
  exists m,
    n <= m <= MAX_FAST /\
    (forall fuel, (gap + 32 <= fuel)%nat -> kiss_fft_next_fast_size fuel n = Some m) /\
    smooth235 m /\ (forall k, n <= k < m -> ~ only_235 k).
Proof.
  induction gap as [| gap IH]; intros n Hn Hgap.
  - assert (n = MAX_FAST) by lia. subst n.
    exists MAX_FAST. split; [lia |]. split; [| split; [exact MAX_FAST_smooth | lia]].
    intros fuel Hf. destruct fuel as [| fuel]; [lia |].
    destruct (strip_235 (S fuel) MAX_FAST) as (m2 & m3 & m5 & E2 & E3 & E5 & H1 & Hs & Hns);
      [lia | vm_compute Z.log2; lia |].
    cbn [kiss_fft_next_fast_size]. rewrite E2, E3, E5.
    destruct (Z.leb_spec m5 1) as [_ | Hgt]; [reflexivity |].
    exfalso. apply (Hns Hgt). apply only_235_smooth. exact MAX_FAST_smooth.
  - assert (Hlog : Z.log2 n < 32).
    { pose proof (Z.log2_le_mono n MAX_FAST ltac:(lia)) as Hl.
      vm_compute (Z.log2 MAX_FAST) in Hl. lia. }
    destruct (strip_235 (S (gap + 32)) n) as (m2 & m3 & m5 & E2 & E3 & E5 & H1 & Hs & Hns);
      [lia | lia |].
    destruct (Z.eq_dec m5 1) as [E1 | Hne].
    + exists n. split; [lia |]. split; [| split; [apply Hs; exact E1 | lia]].
      intros fuel Hf. destruct fuel as [| fuel]; [lia |].
      destruct (strip_235 (S fuel) n) as (m2' & m3' & m5' & E2' & E3' & E5' & H1' & Hs' & Hns');
        [lia | lia |].
      cbn [kiss_fft_next_fast_size]. rewrite E2', E3', E5'.
      destruct (Z.leb_spec m5' 1) as [_ | Hgt]; [reflexivity |].
      exfalso. apply (Hns' Hgt). apply only_235_smooth. apply Hs. exact E1.
    + assert (Hnot : ~ only_235 n) by (apply Hns; lia).
      assert (Hlt : n < MAX_FAST).
      { destruct (Z.eq_dec n MAX_FAST) as [-> | Hd]; [| lia].
        exfalso. apply Hnot. apply only_235_smooth. exact MAX_FAST_smooth. }
      destruct (IH (n + 1) ltac:(lia) ltac:(lia)) as (m & Hr & Hrun & Hsm & Hmin).
      exists m. split; [lia |]. split; [| split; [exact Hsm |]].
      * intros fuel Hf. destruct fuel as [| fuel]; [lia |].
        destruct (strip_235 (S fuel) n) as (m2' & m3' & m5' & E2' & E3' & E5' & H1' & Hs' & Hns');
          [lia | lia |].
        cbn [kiss_fft_next_fast_size]. rewrite E2', E3', E5'.
        destruct (Z.leb_spec m5' 1) as [Hle | Hgt].
        { exfalso. apply Hnot. apply only_235_smooth. apply Hs'. lia. }
        rewrite wrap_int_id by (unfold INT_MIN, INT_MAX, MAX_FAST in *; lia).
        apply Hrun. lia.
      * intros k Hk. destruct (Z.eq_dec k n) as [-> | Hkn]; [exact Hnot |].
        apply Hmin. lia.
Qed.

(** C4, within the range the code serves.  For every n with
    1 <= n <= MAX_FAST (2125764000, the largest [int] of the form
    2^a 3^b 5^c) the call returns, with any fuel from some bound on, the
    least m >= n whose only prime factors are 2, 3 and 5; m is of the form
    2^a 3^b 5^c. *)
Theorem kiss_fft_next_fast_size_least n :
  1 <= n <= MAX_FAST ->
  exists m,
    (exists fuel0, forall fuel, (fuel0 <= fuel)%nat ->
       kiss_fft_next_fast_size fuel n = Some m) /\
    n <= m /\ smooth235 m /\ only_235 m /\
    (forall k, n <= k < m -> ~ only_235 k).
Proof.
  intros Hn.
  destruct (next_fast_loop_spec (Z.to_nat (MAX_FAST - n)) n Hn) as (m & Hr & Hrun & Hsm & Hmin).
  { rewrite Z2Nat.id; lia. }
  exists m. split; [eexists; exact Hrun |]. split; [lia |].
  split; [exact Hsm |]. split; [apply only_235_smooth; exact Hsm | exact Hmin].
Qed.

Lemma kiss_fft_next_fast_size_least_witness :
  exists m,
    (exists fuel0, forall fuel, (fuel0 <= fuel)%nat ->
       kiss_fft_next_fast_size fuel 361 = Some m) /\
    361 <= m /\ smooth235 m /\ only_235 m /\
    (forall k, 361 <= k < m -> ~ only_235 k).
Proof.
  apply (kiss_fft_next_fast_size_least 361). unfold MAX_FAST. lia.
Defined.

(** C4 as the specification words it ("for every integer n") fails at
    n = -7: the call returns -7 at once, and 7 divides -7. *)
Lemma kiss_fft_next_fast_size_neg7 :
  kiss_fft_next_fast_size 1 (-7) = Some (-7) /\ ~ least_fast_from (-7).
Proof.
  split; [reflexivity |].
  intros (m & [fuel E] & _ & Honly & _).
  assert (Em : m = -7).
  { destruct fuel as [| fuel]; [discriminate |]. vm_compute in E. congruence. }
  subst m.
  destruct (Honly 7 prime_7) as [H | [H | H]]; try discriminate.
  exists (-1). reflexivity.
Qed.

(** For n = 0 the first inner loop never ends: no fuel is enough. *)
Lemma kiss_fft_next_fast_size_0_diverges fuel :
  kiss_fft_next_fast_size fuel 0 = None.
Proof.
  assert (H : forall f, strip f 2 0 = None).
  { induction f as [| f IHf]; [reflexivity | simpl; exact IHf]. }
  destruct fuel as [| fuel]; [reflexivity |].
  cbn [kiss_fft_next_fast_size]. rewrite H. reflexivity.
Qed.

End FastSizeFacts.

(** ** The transform engine *)

Module EngineFacts.
Import Engine.
Local Open Scope nat_scope.

(** Decide the address comparisons left by [upd] with the facts at hand. *)
Ltac eqb_lia :=
  repeat match goal with
    | |- context [Nat.eqb ?a ?b] =>
        first
          [ replace (Nat.eqb a b) with false by (symmetry; apply Nat.eqb_neq; lia)
          | replace (Nat.eqb a b) with true by (symmetry; apply Nat.eqb_eq; lia) ]
    end.

(** Replace the reads of [F] by reads of [G] where [H] says they agree. *)
Ltac reads_by H F :=
  repeat match goal with
    | |- context [F ?a] => rewrite (H a) by lia
    end.

Section Columns.
Context {G : KissGuts}.
Variable body : nat -> buf -> buf.
Variable col : nat -> nat -> Prop.
Variable bound : nat.

Hypothesis body_frame :
  forall j F x, j < bound -> ~ col j x -> body j F x = F x.
Hypothesis body_local :
  forall j F F', j < bound -> (forall y, col j y -> F y = F' y) ->
  forall x, col j x -> body j F x = body j F' x.
Hypothesis col_disjoint :
  forall j j' x, j < bound -> j' < bound -> col j x -> col j' x -> j = j'.

Lemma columns_frame k : forall j F x,
  j + k <= bound -> (forall j', j <= j' < j + k -> ~ col j' x) ->
  columns body k j F x = F x.
Proof.
  induction k as [| k IH]; intros j F x Hb Hout; [reflexivity |].
  simpl. rewrite IH; [| lia | intros j' Hj'; apply Hout; lia].
  apply body_frame; [lia | apply Hout; lia].
Qed.

Lemma columns_at k : forall j F j0 x,
  j + k <= bound -> j <= j0 < j + k -> col j0 x ->
  columns body k j F x = body j0 F x.
Proof.
  induction k as [| k IH]; intros j F j0 x Hb Hj Hc; [lia |].
  simpl. destruct (Nat.eq_dec j0 j) as [-> | Hne].
  - rewrite columns_frame; [reflexivity | lia |].
    intros j' Hj' Hc'. assert (j' = j) by (apply (col_disjoint j' j x); auto; lia). lia.
  - rewrite (IH (S j) (body j F) j0 x); [| lia | lia | exact Hc].
    apply body_local; [lia | | exact Hc].
    intros y Hy. apply body_frame; [lia |].
    intros Hy'. apply Hne. apply (col_disjoint j0 j y); auto; lia.
Qed.


(** A block that the columns below [bound] make up. *)
Variable block : nat -> Prop.
Hypothesis block_cover : forall x, block x <-> exists j, j < bound /\ col j x.



End Columns.

(** The cell [x] of a block of [N] runs of length [m]: its run and column. *)
Lemma block_column Fout m N x :
  Fout <= x < Fout + N * m ->
  exists q j, j < m /\ q < N /\ x = Fout + q * m + j.
Proof.
  intros Hx. assert (Hm : m <> 0) by nia.
  exists ((x - Fout) / m), ((x - Fout) mod m).
  pose proof (Nat.div_mod_eq (x - Fout) m) as Hdm.
  pose proof (Nat.mod_upper_bound (x - Fout) m Hm) as Hub.
  split; [exact Hub |]. split; [| nia].
  assert (m * ((x - Fout) / m) < N * m) by lia. nia.
Qed.

Section Butterflies.
Context {G : KissGuts} {M : KissMacros}.

(** *** Radix 2 *)

Lemma bfly2_loop_columns tw fstride Fout m k : forall j F,
  bfly2_loop k tw fstride (Fout + j) (Fout + m + j) (j * fstride) F
  = columns (body2 tw fstride Fout m) k j F.
Proof.
  induction k as [| k IH]; intros j F; [reflexivity |].
  cbn [columns]. rewrite <- IH. unfold body2. cbn [bfly2_loop].
  replace (Fout + j + 1) with (Fout + S j) by lia.
  replace (Fout + m + j + 1) with (Fout + m + S j) by lia.
  replace (j * fstride + fstride) with (S j * fstride) by lia.
  reflexivity.
Qed.

Lemma body2_frame tw fstride Fout m j F x :
  j < m -> ~ col2 Fout m j x -> body2 tw fstride Fout m j F x = F x.
Proof.
  unfold col2, body2. intros Hj Hx. cbn [bfly2_loop]. unfold C_FIXDIV, upd.
  eqb_lia. reflexivity.
Qed.

Lemma body2_local tw fstride Fout m j F F' :
  j < m -> (forall y, col2 Fout m j y -> F y = F' y) ->
  forall x, col2 Fout m j x -> body2 tw fstride Fout m j F x = body2 tw fstride Fout m j F' x.
Proof.
  unfold col2, body2. intros Hj Hag x Hx. cbn [bfly2_loop]. unfold C_FIXDIV, upd.
  destruct Hx as [-> | ->]; eqb_lia; reads_by Hag F; reflexivity.
Qed.


Lemma kf_bfly2_columns F Fout fstride st m :
  kf_bfly2 F Fout fstride st m = columns (body2 (twiddles st) fstride Fout m) m 0 F.
Proof.
  unfold kf_bfly2. rewrite <- bfly2_loop_columns. f_equal; lia.
Qed.



(** *** Radix 3 *)

Lemma bfly3_loop_columns tw epi3 fstride Fout m k : forall j F,
  bfly3_loop k tw epi3 fstride m (2 * m) (Fout + j) (j * fstride) (j * (fstride * 2)) F
  = columns (body3 tw epi3 fstride Fout m) k j F.
Proof.
  induction k as [| k IH]; intros j F; [reflexivity |].
  cbn [columns]. rewrite <- IH. unfold body3. cbn [bfly3_loop].
  replace (Fout + j + 1) with (Fout + S j) by lia.
  replace (j * fstride + fstride) with (S j * fstride) by lia.
  replace (j * (fstride * 2) + fstride * 2) with (S j * (fstride * 2)) by lia.
  reflexivity.
Qed.

Lemma body3_frame tw epi3 fstride Fout m j F x :
  j < m -> ~ col3 Fout m j x -> body3 tw epi3 fstride Fout m j F x = F x.
Proof.
  unfold col3, body3. intros Hj Hx. cbn [bfly3_loop]. unfold C_FIXDIV, upd.
  eqb_lia. reflexivity.
Qed.

Lemma body3_local tw epi3 fstride Fout m j F F' :
  j < m -> (forall y, col3 Fout m j y -> F y = F' y) ->
  forall x, col3 Fout m j x ->
  body3 tw epi3 fstride Fout m j F x = body3 tw epi3 fstride Fout m j F' x.
Proof.
  unfold col3, body3. intros Hj Hag x Hx. cbn [bfly3_loop]. unfold C_FIXDIV, upd.
  destruct Hx as [-> | [-> | ->]]; eqb_lia; reads_by Hag F; reflexivity.
Qed.


Lemma kf_bfly3_columns F Fout fstride st m :
  kf_bfly3 F Fout fstride st m
  = columns (body3 (twiddles st) (twiddles st (fstride * m)) fstride Fout m) m 0 F.
Proof.
  unfold kf_bfly3. rewrite <- bfly3_loop_columns. f_equal; lia.
Qed.



(** *** Radix 4 *)

Lemma bfly4_loop_columns tw inv fstride Fout m k : forall j F,
  bfly4_loop k tw inv fstride m (2 * m) (3 * m) (Fout + j)
    (j * fstride) (j * (fstride * 2)) (j * (fstride * 3)) F
  = columns (body4 tw inv fstride Fout m) k j F.
Proof.
  induction k as [| k IH]; intros j F; [reflexivity |].
  cbn [columns]. rewrite <- IH. unfold body4. cbn [bfly4_loop].
  replace (Fout + j + 1) with (Fout + S j) by lia.
  replace (j * fstride + fstride) with (S j * fstride) by lia.
  replace (j * (fstride * 2) + fstride * 2) with (S j * (fstride * 2)) by lia.
  replace (j * (fstride * 3) + fstride * 3) with (S j * (fstride * 3)) by lia.
  reflexivity.
Qed.

Lemma body4_frame tw inv fstride Fout m j F x :
  j < m -> ~ col4 Fout m j x -> body4 tw inv fstride Fout m j F x = F x.
Proof.
  unfold col4, body4. intros Hj Hx. cbn [bfly4_loop]. unfold C_FIXDIV, upd.
  destruct inv; eqb_lia; reflexivity.
Qed.

Lemma body4_local tw inv fstride Fout m j F F' :
  j < m -> (forall y, col4 Fout m j y -> F y = F' y) ->
  forall x, col4 Fout m j x ->
  body4 tw inv fstride Fout m j F x = body4 tw inv fstride Fout m j F' x.
Proof.
  unfold col4, body4. intros Hj Hag x Hx. cbn [bfly4_loop]. unfold C_FIXDIV, upd.
  destruct inv; destruct Hx as [-> | [-> | [-> | ->]]]; eqb_lia; reads_by Hag F;
    reflexivity.
Qed.


Lemma kf_bfly4_columns F Fout fstride st m :
  kf_bfly4 F Fout fstride st m
  = columns (body4 (twiddles st) (inverse st) fstride Fout m) m 0 F.
Proof.
  unfold kf_bfly4. rewrite <- bfly4_loop_columns. f_equal; lia.
Qed.



(** *** Radix 5 *)

Lemma bfly5_loop_columns tw ya yb fstride Fout m k : forall j F,
  bfly5_loop k tw ya yb fstride j (Fout + j) (Fout + m + j) (Fout + 2 * m + j)
    (Fout + 3 * m + j) (Fout + 4 * m + j) F
  = columns (body5 tw ya yb fstride Fout m) k j F.
Proof.
  induction k as [| k IH]; intros j F; [reflexivity |].
  cbn [columns]. rewrite <- IH. unfold body5. cbn [bfly5_loop].
  replace (j + 1) with (S j) by lia.
  replace (Fout + j + 1) with (Fout + S j) by lia.
  replace (Fout + m + j + 1) with (Fout + m + S j) by lia.
  replace (Fout + 2 * m + j + 1) with (Fout + 2 * m + S j) by lia.
  replace (Fout + 3 * m + j + 1) with (Fout + 3 * m + S j) by lia.
  replace (Fout + 4 * m + j + 1) with (Fout + 4 * m + S j) by lia.
  reflexivity.
Qed.

Lemma body5_frame tw ya yb fstride Fout m j F x :
  j < m -> ~ col5 Fout m j x -> body5 tw ya yb fstride Fout m j F x = F x.
Proof.
  unfold col5, body5. intros Hj Hx. cbn [bfly5_loop]. unfold C_FIXDIV, upd.
  eqb_lia. reflexivity.
Qed.

Lemma body5_local tw ya yb fstride Fout m j F F' :
  j < m -> (forall y, col5 Fout m j y -> F y = F' y) ->
  forall x, col5 Fout m j x ->
  body5 tw ya yb fstride Fout m j F x = body5 tw ya yb fstride Fout m j F' x.
Proof.
  unfold col5, body5. intros Hj Hag x Hx. cbn [bfly5_loop]. unfold C_FIXDIV, upd.
  destruct Hx as [-> | [-> | [-> | [-> | ->]]]]; eqb_lia; reads_by Hag F;
    reflexivity.
Qed.


Lemma kf_bfly5_columns F Fout fstride st m :
  kf_bfly5 F Fout fstride st m
  = columns (body5 (twiddles st) (twiddles st (fstride * m)) (twiddles st (fstride * 2 * m)) fstride Fout m) m 0 F.
Proof.
  unfold kf_bfly5. rewrite <- bfly5_loop_columns. f_equal; lia.
Qed.



(** *** Any other radix *)

Lemma fold_left_ext_in (A B : Type) (f g : A -> B -> A) (l : list B) : forall a,
  (forall a' b, In b l -> f a' b = g a' b) -> fold_left f l a = fold_left g l a.
Proof.
  induction l as [| b l IH]; intros a H; [reflexivity |].
  simpl. rewrite (H a b) by (left; reflexivity).
  apply IH. intros a' b' Hin. apply H. right. exact Hin.
Qed.

Lemma generic_raw_ext tw fstride N x x' k p :
  1 <= p -> (forall q, q < p -> x q = x' q) ->
  generic_raw tw fstride N x k p = generic_raw tw fstride N x' k p.
Proof.
  intros Hp H. unfold generic_raw. rewrite (H 0) by lia.
  apply fold_left_ext_in. intros a q Hin. apply in_seq in Hin.
  rewrite (H q) by lia. reflexivity.
Qed.

(** A cell of a block lies in one column only. *)
Lemma column_unique m u u' q q' :
  u < m -> u' < m -> u + q * m = u' + q' * m -> u = u' /\ q = q'.
Proof.
  intros Hu Hu' E.
  assert (Hmod : (u + q * m) mod m = (u' + q' * m) mod m) by (rewrite E; reflexivity).
  rewrite !Nat.Div0.mod_add, !Nat.mod_small in Hmod by assumption.
  subst u'. split; [reflexivity | nia].
Qed.

Lemma generic_gather_frame n : forall F Fout m p q1 k scratch q,
  q < q1 -> generic_gather n F Fout m p q1 k scratch q = scratch q.
Proof.
  induction n as [| n IH]; intros F Fout m p q1 k scratch q Hq; [reflexivity |].
  cbn [generic_gather]. rewrite IH by lia. unfold C_FIXDIV, upd.
  eqb_lia. reflexivity.
Qed.

Lemma generic_gather_at n : forall F Fout m p q1 k scratch j,
  j < n ->
  generic_gather n F Fout m p q1 k scratch (q1 + j) = F (Fout + (k + j * m)).
Proof.
  induction n as [| n IH]; intros F Fout m p q1 k scratch j Hj; [lia |].
  cbn [generic_gather]. destruct j as [| j].
  - rewrite generic_gather_frame by lia. unfold C_FIXDIV, upd.
    eqb_lia. f_equal. lia.
  - replace (q1 + S j) with (q1 + 1 + j) by lia.
    rewrite IH by lia. f_equal. lia.
Qed.

Lemma generic_accum_spec n : forall tw scratch fstride N Fout k q0 F x,
  generic_accum n tw scratch fstride N Fout k (S q0) (twidx_at fstride N k q0) F x
  = if Nat.eqb x (Fout + k)
    then fold_left
           (fun acc q => C_ADDTO acc (C_MUL (scratch q) (tw_read tw (twidx_at fstride N k q))))
           (seq (S q0) n) (F (Fout + k))
    else F x.
Proof.
  induction n as [| n IH]; intros tw scratch fstride N Fout k q0 F x.
  - simpl. destruct (Nat.eqb_spec x (Fout + k)) as [-> | _]; reflexivity.
  - cbn [generic_accum].
    change (twidx_step fstride N k (twidx_at fstride N k q0))
      with (twidx_at fstride N k (S q0)).
    replace (S q0 + 1) with (S (S q0)) by lia.
    rewrite IH. unfold upd.
    destruct (Nat.eqb_spec x (Fout + k)) as [-> | _]; [| reflexivity].
    rewrite Nat.eqb_refl. reflexivity.
Qed.

Lemma generic_scatter_frame n : forall tw scratch fstride N Fout m p q1 k F x,
  (forall j, j < n -> x <> Fout + (k + j * m)) ->
  generic_scatter n tw scratch fstride N Fout m p q1 k F x = F x.
Proof.
  induction n as [| n IH]; intros tw scratch fstride N Fout m p q1 k F x Hx;
    [reflexivity |].
  cbn [generic_scatter]. rewrite IH.
  - change 0%Z with (twidx_at fstride N k 0). rewrite generic_accum_spec.
    pose proof (Hx 0 ltac:(lia)) as H0. unfold upd. eqb_lia. reflexivity.
  - intros j Hj. pose proof (Hx (S j) ltac:(lia)). lia.
Qed.

Lemma generic_scatter_at n : forall tw scratch fstride N Fout m p q1 k F j,
  1 <= m -> j < n ->
  generic_scatter n tw scratch fstride N Fout m p q1 k F (Fout + (k + j * m))
  = generic_raw tw fstride N scratch (k + j * m) p.
Proof.
  induction n as [| n IH]; intros tw scratch fstride N Fout m p q1 k F j Hm Hj; [lia |].
  cbn [generic_scatter]. destruct j as [| j].
  - rewrite generic_scatter_frame by (intros j Hjn; nia).
    change 0%Z with (twidx_at fstride N k 0). rewrite generic_accum_spec.
    replace (k + 0 * m) with k by lia.
    rewrite Nat.eqb_refl. unfold generic_raw, upd. rewrite Nat.eqb_refl. reflexivity.
  - replace (k + S j * m) with (k + m + j * m) by lia.
    apply IH; lia.
Qed.

Lemma generic_loop_frame n : forall tw fstride N Fout m p u scratch F x,
  (forall u' q1, u <= u' < u + n -> q1 < p -> x <> Fout + (u' + q1 * m)) ->
  generic_loop n tw fstride N Fout m p u scratch F x = F x.
Proof.
  induction n as [| n IH]; intros tw fstride N Fout m p u scratch F x Hx;
    [reflexivity |].
  cbn [generic_loop]. rewrite IH by (intros u' q1 Hu' Hq1; apply Hx; lia).
  apply generic_scatter_frame. intros j Hj. apply Hx; lia.
Qed.

Lemma generic_loop_at n : forall tw fstride N Fout m p u scratch F u' q1,
  u + n <= m -> u <= u' < u + n -> q1 < p ->
  generic_loop n tw fstride N Fout m p u scratch F (Fout + (u' + q1 * m))
  = generic_raw tw fstride N (fun q => F (Fout + (u' + q * m))) (u' + q1 * m) p.
Proof.
  induction n as [| n IH]; intros tw fstride N Fout m p u scratch F u' q1 Hb Hu' Hq1;
    [lia |].
  cbn [generic_loop]. destruct (Nat.eq_dec u' u) as [-> | Hne].
  - rewrite generic_loop_frame.
    + rewrite generic_scatter_at by lia.
      apply generic_raw_ext; [lia |]. intros q Hq.
      apply (generic_gather_at p F Fout m p 0 u scratch q Hq).
    + intros u2 q2 Hu2 Hq2 E.
      assert (E' : u + q1 * m = u2 + q2 * m) by lia.
      apply column_unique in E'; lia.
  - rewrite IH by lia.
    apply generic_raw_ext; [lia |]. intros q Hq.
    apply generic_scatter_frame. intros j Hj E.
    assert (E' : u' + q * m = u + j * m) by lia.
    apply column_unique in E'; lia.
Qed.

(** An index that is not negative reads the table. *)
Lemma tw_read_nat tw j : tw_read tw (Z.of_nat j) = tw j.
Proof.
  unfold tw_read. destruct (Z.ltb_spec (Z.of_nat j) 0) as [Hneg | _]; [lia |].
  rewrite Nat2Z.id. reflexivity.
Qed.

Lemma twidx_step_Z fstride N k twidx :
  twidx_step fstride N k twidx
  = (let s := CInt.wrap_int (twidx + Z.of_nat fstride * Z.of_nat k) in
     if Z.of_nat N <=? s then s - Z.of_nat N else s)%Z.
Proof. unfold twidx_step. rewrite Nat2Z.inj_mul. reflexivity. Qed.

(** With [twidx] and [fstride * k] below [N] and [N] at most 2^30 the sum
    fits an [int], and one conditional subtraction reduces it modulo [N]. *)
Lemma twidx_step_mod fstride N k t :
  0 < N -> (Z.of_nat N <= 2 ^ 30)%Z -> fstride * k < N -> t < N ->
  twidx_step fstride N k (Z.of_nat t) = Z.of_nat ((t + fstride * k) mod N).
Proof.
  intros HN Hsmall Hk Ht. unfold twidx_step. cbv zeta.
  change (2 ^ 30)%Z with 1073741824%Z in Hsmall.
  rewrite CIntFacts.wrap_int_id by (unfold CInt.INT_MIN, CInt.INT_MAX; lia).
  rewrite <- Nat2Z.inj_add.
  destruct (Z.leb_spec (Z.of_nat N) (Z.of_nat (t + fstride * k))) as [Hge | Hlt].
  - rewrite <- Nat2Z.inj_sub by lia. f_equal.
    replace (t + fstride * k) with ((t + fstride * k - N) + 1 * N) at 2 by lia.
    rewrite Nat.Div0.mod_add, Nat.mod_small by lia. reflexivity.
  - rewrite Nat.mod_small by lia. reflexivity.
Qed.

Lemma twidx_at_mod fstride N k q :
  0 < N -> (Z.of_nat N <= 2 ^ 30)%Z -> fstride * k < N ->
  twidx_at fstride N k q = Z.of_nat ((fstride * k * q) mod N).
Proof.
  intros HN Hsmall Hk. induction q as [| q IH].
  - unfold twidx_at. simpl. rewrite Nat.mul_0_r, Nat.Div0.mod_0_l. reflexivity.
  - change (twidx_at fstride N k (S q))
      with (twidx_step fstride N k (twidx_at fstride N k q)).
    rewrite IH.
    pose proof (Nat.mod_upper_bound (fstride * k * q) N ltac:(lia)) as Hub.
    rewrite twidx_step_mod by assumption. f_equal.
    rewrite Nat.Div0.add_mod_idemp_l. f_equal. lia.
Qed.

Lemma generic_raw_output tw fstride N x k p :
  0 < N -> (Z.of_nat N <= 2 ^ 30)%Z -> fstride * k < N ->
  generic_raw tw fstride N x k p = generic_output tw fstride N x k p.
Proof.
  intros HN Hsmall Hk. unfold generic_raw, generic_output.
  apply fold_left_ext_in. intros a q _.
  rewrite twidx_at_mod by assumption. rewrite tw_read_nat. reflexivity.
Qed.

Lemma cell_in_block m p u q1 : u < m -> q1 < p -> u + q1 * m < p * m.
Proof. intros Hu Hq. nia. Qed.



(** *** The dispatch *)



(** *** The recursive driver *)

Lemma work_copy_spec n : forall f step Fout fp F x,
  work_copy n f step Fout fp F x
  = if (Fout <=? x) && (x <? Fout + n) then f (fp + (x - Fout) * step) else F x.
Proof.
  induction n as [| n IH]; intros f step Fout fp F x.
  - simpl. destruct (Nat.leb_spec Fout x); destruct (Nat.ltb_spec x (Fout + 0));
      simpl; try reflexivity; lia.
  - cbn [work_copy]. rewrite IH. unfold upd.
    destruct (Nat.leb_spec (Fout + 1) x); destruct (Nat.ltb_spec x (Fout + 1 + n));
      destruct (Nat.leb_spec Fout x); destruct (Nat.ltb_spec x (Fout + S n));
      simpl; try lia.
    all: try (f_equal; nia).
    all: try (eqb_lia; reflexivity).
    all: try (replace x with Fout by lia; rewrite Nat.eqb_refl; f_equal; lia).
Qed.

Section Rounds.
Variable sub : buf -> nat -> nat -> buf.
Variable m : nat.
Hypothesis sub_frame :
  forall F Fout fp x, ~ (Fout <= x < Fout + m) -> sub F Fout fp x = F x.
Hypothesis sub_indep :
  forall F F' Fout fp x, Fout <= x < Fout + m -> sub F Fout fp x = sub F' Fout fp x.



End Rounds.





(** Round [j] alone gives the radix-4 results of column [j]. *)
Lemma kf_bfly4_at F Fout fstride st m j x :
  j < m -> col4 Fout m j x ->
  kf_bfly4 F Fout fstride st m x
  = body4 (twiddles st) (inverse st) fstride Fout m j F x.
Proof.
  intros Hj Hc. rewrite kf_bfly4_columns.
  apply columns_at with (col := col4 Fout m) (bound := m); try lia; try exact Hc.
  - intros; apply body4_frame; assumption.
  - intros; apply body4_local; assumption.
  - unfold col4; intros; lia.
Qed.

(** With the scratch array at hand, the stage invariant
    fstride * p * m = N for the plan's length N, and 0 < N <= 2^30, the
    generic butterfly leaves at each output position k = u + q1*m of the
    block the value
    x 0 + sum over q = 1 .. p-1 of x q * twiddle[(fstride*k*q) mod N],
    added in this order, x q being the sub-transform value Fout[u + q*m]
    before the call.  The [int] index the code keeps, reduced by one
    conditional subtraction per accumulation step, is (fstride*k*q) mod N
    at step q and so lies in [0, N); the sum formed before the subtraction
    is below 2N and fits an [int].  The term for q = 0 is x 0 itself; where
    twiddle[0] is the unit of C_MUL this is the sum of all p products. *)
Theorem kf_bfly_generic_sum F Fout fstride st m p scratch u q1 :
  KISS_FFT_TMP_ALLOC p = Some scratch ->
  fstride * p * m = nfft st -> 0 < nfft st -> (Z.of_nat (nfft st) <= 2 ^ 30)%Z ->
  u < m -> q1 < p ->
  let k := u + q1 * m in
  let x := fun q => F (Fout + (u + q * m)) in
  kf_bfly_generic F Fout fstride st m p (Fout + k)
  = generic_output (twiddles st) fstride (nfft st) x k p /\
  (forall q,
     twidx_at fstride (nfft st) k q = Z.of_nat ((fstride * k * q) mod nfft st) /\
     (0 <= twidx_at fstride (nfft st) k q < Z.of_nat (nfft st))%Z /\
     (twidx_at fstride (nfft st) k q + Z.of_nat (fstride * k) <= CInt.INT_MAX)%Z) /\
  ((forall c, C_MUL c (twiddles st 0) = c) ->
   kf_bfly_generic F Fout fstride st m p (Fout + k)
   = generic_sum (twiddles st) fstride (nfft st) x k p).
Proof.
  intros Halloc Hinv HN Hsmall Hu Hq1 k x.
  assert (Hk : fstride * k < nfft st).
  { pose proof (cell_in_block m p u q1 Hu Hq1) as Hc. subst k.
    assert (Hf : 1 <= fstride) by nia. rewrite <- Hinv. nia. }
  assert (E : kf_bfly_generic F Fout fstride st m p (Fout + k)
              = generic_output (twiddles st) fstride (nfft st) x k p).
  { unfold kf_bfly_generic. rewrite Halloc. subst k x.
    rewrite generic_loop_at by lia. apply generic_raw_output; assumption. }
  split; [exact E |]. split.
  - intros q. rewrite twidx_at_mod by assumption.
    pose proof (Nat.mod_upper_bound (fstride * k * q) (nfft st) ltac:(lia)).
    change (2 ^ 30)%Z with 1073741824%Z in Hsmall. unfold CInt.INT_MAX.
    split; [reflexivity | lia].
  - intros Hunit. rewrite E. unfold generic_output, generic_sum.
    rewrite Nat.mul_0_r, Nat.Div0.mod_0_l, Hunit. reflexivity.
Qed.

Lemma index_overflow_at N fstride :
  Z.of_nat N = 1879048192%Z -> Z.of_nat fstride = 268435456%Z ->
  fstride * 7 * 1 = N /\
  twidx_at fstride N 6 1 = 1610612736%Z /\
  twidx_at fstride N 6 2 = (-1073741824)%Z /\
  Z.of_nat ((fstride * 6 * 2) mod N) = 1342177280%Z /\
  (forall tw, tw_read tw (twidx_at fstride N 6 2) = stray (-1073741824)%Z) /\
  (forall F st scratch,
     nfft st = N -> KISS_FFT_TMP_ALLOC 7 = Some scratch ->
     kf_bfly_generic F 0 fstride st 1 7 6
     = fold_left
         (fun acc q =>
            C_ADDTO acc (C_MUL (F q) (tw_read (twiddles st) (twidx_at fstride N 6 q))))
         [3; 4; 5; 6]
         (C_ADDTO (C_ADDTO (F 0) (C_MUL (F 1) (tw_read (twiddles st) 1610612736%Z)))
                  (C_MUL (F 2) (stray (-1073741824)%Z)))).
Proof.
  intros EN Ef.
  assert (E1 : twidx_at fstride N 6 1 = 1610612736%Z).
  { unfold twidx_at, Nat.iter. cbn [nat_rect].
    rewrite twidx_step_Z, EN, Ef. reflexivity. }
  assert (E2 : twidx_at fstride N 6 2 = (-1073741824)%Z).
  { change (twidx_at fstride N 6 2)
      with (twidx_step fstride N 6 (twidx_at fstride N 6 1)).
    rewrite E1, twidx_step_Z, EN, Ef. reflexivity. }
  split; [apply Nat2Z.inj; rewrite !Nat2Z.inj_mul, EN, Ef; reflexivity |].
  split; [exact E1 |]. split; [exact E2 |]. split.
  - rewrite Nat2Z.inj_mod, !Nat2Z.inj_mul, EN, Ef. reflexivity.
  - split; [intros tw; rewrite E2; reflexivity |].
    intros F st scratch Hlen Halloc.
    unfold kf_bfly_generic. rewrite Halloc, Hlen.
    pose proof (generic_loop_at 1 (twiddles st) fstride N 0 1 7 0 scratch F 0 6
                  ltac:(lia) ltac:(lia) ltac:(lia)) as Hat.
    change (0 + (0 + 6 * 1)) with 6 in Hat. change (0 + 6 * 1) with 6 in Hat.
    rewrite Hat.
    rewrite (generic_raw_ext _ _ _ _ F) by (lia || (intros q _; f_equal; lia)).
    unfold generic_raw. cbn [Nat.sub seq fold_left].
    rewrite E1, E2. reflexivity.
Qed.

(** C6 fails on the code for a length above 2^30.  N = 1879048192 = 7 * 2^28
    is an [int]; its plan is fourteen radix-4 stages and a last stage of
    radix 7, which the generic butterfly runs with fstride = 2^28 on blocks
    of 7 cells (m = 1).  For the output position k = 6 the index is
    6 * 2^28 = 1610612736 after the first accumulation step, within the
    table; adding 6 * 2^28 again gives 3221225472, which the [int] holds as
    -1073741824: the comparison with Norig fails, nothing is subtracted,
    and the read of twiddles[twidx] falls in front of the table instead of
    on twiddles[(fstride * k * 2) mod N] = twiddles[1342177280].  What the
    butterfly leaves in cell 6 has that stray value as its third term. *)
Lemma kf_bfly_generic_index_overflow :
  let N := Z.to_nat 1879048192 in
  let fstride := Z.to_nat 268435456 in
  Factor.kf_factor 1879048192
  = Some [(4, 469762048); (4, 117440512); (4, 29360128); (4, 7340032);
          (4, 1835008); (4, 458752); (4, 114688); (4, 28672); (4, 7168);
          (4, 1792); (4, 448); (4, 112); (4, 28); (4, 7); (7, 1)]%Z /\
  fstride * 7 * 1 = N /\
  twidx_at fstride N 6 1 = 1610612736%Z /\
  twidx_at fstride N 6 2 = (-1073741824)%Z /\
  Z.of_nat ((fstride * 6 * 2) mod N) = 1342177280%Z /\
  (forall tw, tw_read tw (twidx_at fstride N 6 2) = stray (-1073741824)%Z) /\
  (forall F st scratch,
     nfft st = N -> KISS_FFT_TMP_ALLOC 7 = Some scratch ->
     kf_bfly_generic F 0 fstride st 1 7 6
     = fold_left
         (fun acc q =>
            C_ADDTO acc (C_MUL (F q) (tw_read (twiddles st) (twidx_at fstride N 6 q))))
         [3; 4; 5; 6]
         (C_ADDTO (C_ADDTO (F 0) (C_MUL (F 1) (tw_read (twiddles st) 1610612736%Z)))
                  (C_MUL (F 2) (stray (-1073741824)%Z)))).
Proof.
  cbv zeta.
  split; [vm_compute; reflexivity |].
  apply index_overflow_at; apply Z2Nat.id; lia.
Qed.

(** C7.  With the twiddle table fixed, the radix-2, radix-3, radix-5 and
    generic butterflies give the same array for any two settings of the
    direction flag.  The radix-4 butterfly gives, for both settings, the
    same values at the positions j and j + 2m of every column j < m; at the
    odd positions j + m and j + 3m it writes s5 -+ i*s4 as a swap of the
    real and imaginary parts of s4 with one of them negated, with the signs
    exchanged between the forward and the inverse setting. *)
Theorem direction_affects_only_radix4 F Fout fstride st m p :
  (forall b b',
     kf_bfly2 F Fout fstride (with_inverse b st) m
     = kf_bfly2 F Fout fstride (with_inverse b' st) m /\
     kf_bfly3 F Fout fstride (with_inverse b st) m
     = kf_bfly3 F Fout fstride (with_inverse b' st) m /\
     kf_bfly5 F Fout fstride (with_inverse b st) m
     = kf_bfly5 F Fout fstride (with_inverse b' st) m /\
     kf_bfly_generic F Fout fstride (with_inverse b st) m p
     = kf_bfly_generic F Fout fstride (with_inverse b' st) m p) /\
  (forall j, j < m ->
     let fwd := kf_bfly4 F Fout fstride (with_inverse false st) m in
     let inv := kf_bfly4 F Fout fstride (with_inverse true st) m in
     inv (Fout + j) = fwd (Fout + j) /\
     inv (Fout + j + 2 * m) = fwd (Fout + j + 2 * m) /\
     exists s5 s4,
       fwd (Fout + j + m)
       = mk_cpx (s_add (r s5) (i s4)) (s_sub (i s5) (r s4)) /\
       fwd (Fout + j + 3 * m)
       = mk_cpx (s_sub (r s5) (i s4)) (s_add (i s5) (r s4)) /\
       inv (Fout + j + m)
       = mk_cpx (s_sub (r s5) (i s4)) (s_add (i s5) (r s4)) /\
       inv (Fout + j + 3 * m)
       = mk_cpx (s_add (r s5) (i s4)) (s_sub (i s5) (r s4))).
Proof.
  split.
  - intros b b'. repeat split; reflexivity.
  - intros j Hj fwd inv. subst fwd inv.
    rewrite !(kf_bfly4_at F Fout fstride _ m j) by (unfold col4; lia).
    unfold body4. cbn [bfly4_loop with_inverse twiddles inverse].
    unfold C_FIXDIV, upd. eqb_lia.
    split; [reflexivity |]. split; [reflexivity |].
    do 2 eexists. repeat split; reflexivity.
Qed.

(** *** Plans and entry points *)

(** The pair of [int]s as the engine reads it. *)
Lemma emits_plan_ok fs n p l :
  Factor.emits fs n p l -> (1 <= n)%Z ->
  plan_ok (Z.to_nat n) (map (fun pm => (Z.to_nat (fst pm), Z.to_nat (snd pm))) l).
Proof.
  induction 1 as [n p p' Hstep Hle | n p p' l Hstep Hgt Hem IH]; intros Hn;
    destruct Hstep as (Hd & Hpos & _);
    pose proof (CIntFacts.quot_exact n p' ltac:(lia) Hpos Hd) as Hex; simpl.
  - assert (Hq : Z.quot n p' = 1%Z) by nia. rewrite Hq in *.
    split; [| split; [lia | left; reflexivity]].
    rewrite <- Z2Nat.inj_mul by lia. f_equal. lia.
  - split; [| split; [lia | right; split; [lia | apply IH; lia]]].
    rewrite <- Z2Nat.inj_mul by lia. f_equal. lia.
Qed.

(** A plan built for an [int] length N >= 1 describes a block of N samples. *)
Lemma kiss_fft_alloc_plan_ok nfft0 inverse_fft storage st :
  (1 <= nfft0 <= CInt.INT_MAX)%Z ->
  kiss_fft_alloc nfft0 inverse_fft storage = Some st ->
  nfft st = Z.to_nat nfft0 /\ plan_ok (nfft st) (factors st).
Proof.
  intros Hn Halloc. unfold kiss_fft_alloc in Halloc.
  destruct storage as [tw |]; [| discriminate].
  destruct (FactorFacts.kf_factor_emits nfft0 Hn) as (l & E & Hem).
  rewrite E in Halloc. injection Halloc as <-. cbn [nfft factors].
  split; [reflexivity |]. eapply emits_plan_ok; [exact Hem | lia].
Qed.

Lemma ptr_eqb_refl a : ptr_eqb a a = true.
Proof. destruct a as [b |]; simpl; [apply Nat.eqb_refl | reflexivity]. Qed.


(** C8.  For N = 1 the factorizer writes the single pair (1, 1), and with
    a plan of either direction the transform leaves the input sample in the
    first output cell, out of place as well as in place. *)
Theorem kiss_fft_length_1 inverse_fft storage st (h : heap) (a b in_stride : nat) :
  kiss_fft_alloc 1 inverse_fft storage = Some st ->
  a <> b ->
  Factor.kf_factor 1 = Some [(1, 1)%Z] /\
  factors st = [(1, 1)] /\
  (exists h', kiss_fft_stride st (Some a) (Some b) in_stride h = Done h' /\
              h' b 0 = h a 0) /\
  (exists h', heap_of (kiss_fft_stride st (Some a) (Some a) in_stride h) = Some h' /\
              h' a 0 = h a 0).
Proof.
  intros Halloc Hab. unfold kiss_fft_alloc in Halloc.
  destruct storage as [tw |]; [| discriminate].
  change (Factor.kf_factor 1) with (Some [(1, 1)%Z]) in Halloc.
  injection Halloc as <-.
  split; [reflexivity |]. split; [reflexivity |].
  unfold kiss_fft_stride. cbn [ptr_eqb nfft factors map fst snd].
  rewrite Nat.eqb_refl.
  replace (a =? b) with false by (symmetry; apply Nat.eqb_neq; exact Hab).
  try change (Z.to_nat 1) with 1. try change (Pos.to_nat 1) with 1.
  split.
  - eexists. split; [reflexivity |].
    unfold store. rewrite Nat.eqb_refl.
    cbn [kf_work Nat.eqb work_copy kf_bfly]. unfold kf_bfly_generic.
    destruct (KISS_FFT_TMP_ALLOC 1) as [scratch |]; cbn; unfold C_FIXDIV, upd; reflexivity.
  - destruct (KISS_FFT_TMP_ALLOC 1) as [tmpbuf |] eqn:Etmp; cbn [heap_of].
    + eexists. split; [reflexivity |].
      unfold store, memcpy. rewrite Nat.eqb_refl.
      cbn [kf_work Nat.eqb work_copy kf_bfly Nat.ltb Nat.leb]. unfold kf_bfly_generic.
      rewrite Etmp. cbn. unfold C_FIXDIV, upd. reflexivity.
    + eexists. split; reflexivity.
Qed.

(** C9.  When output is aliased to input and the buffer is NULL or the
    scratch array cannot be had, the call ends after [KISS_FFT_ERROR] with
    the heap it was given: no sample of any buffer is written. *)
Theorem kiss_fft_stride_failure_untouched st (fin : ptr) (in_stride : nat) (h : heap) :
  fin = None \/ KISS_FFT_TMP_ALLOC (nfft st) = None ->
  exists msg, kiss_fft_stride st fin fin in_stride h = Failed msg h.
Proof.
  intros Hfail. unfold kiss_fft_stride. rewrite ptr_eqb_refl.
  destruct fin as [b |].
  - destruct Hfail as [Hnull | Htmp]; [discriminate |].
    rewrite Htmp. eexists. reflexivity.
  - eexists. reflexivity.
Qed.

End Butterflies.

(** *** The results at sample data of the exact backend *)

Import Exact.

Lemma kf_bfly_generic_sum_witness :
  @kf_bfly_generic Modular.FGuts Modular.FMacros (Modular.fbuf (Modular.ramp 7)) 0 1
    (Modular.fplan 7 [(7, 1)]) 1 7 (0 + (0 + 3 * 1))
  = @generic_output Modular.FGuts Modular.FMacros
      (twiddles (Modular.fplan 7 [(7, 1)])) 1 7
      (fun q => Modular.fbuf (Modular.ramp 7) (0 + (0 + q * 1))) (0 + 3 * 1) 7.
Proof.
  exact (proj1 (@kf_bfly_generic_sum Modular.FGuts Modular.FMacros
                  (Modular.fbuf (Modular.ramp 7)) 0 1 (Modular.fplan 7 [(7, 1)])
                  1 7 (fun _ => Modular.fcpx 0 0) 0 3
                  eq_refl eq_refl ltac:(cbn; lia) ltac:(cbn; lia)
                  ltac:(lia) ltac:(lia))).
Defined.

Lemma direction_affects_only_radix4_witness :
  @kf_bfly2 ZGuts (ZMacros true) samples 0 1 (with_inverse true (plan4 true)) 2
  = @kf_bfly2 ZGuts (ZMacros true) samples 0 1 (with_inverse false (plan4 true)) 2.
Proof.
  exact (proj1 (proj1 (@direction_affects_only_radix4 ZGuts (ZMacros true) samples 0 1
                         (plan4 true) 2 7) true false)).
Defined.


Lemma kiss_fft_length_1_witness :
  Factor.kf_factor 1 = Some [(1, 1)%Z] /\
  (exists h', @kiss_fft_stride ZGuts (ZMacros true) (plan1 true) (Some 0) (Some 1) 1 heap0
              = Done h' /\ h' 1 0 = heap0 0 0).
Proof.
  destruct (@kiss_fft_length_1 ZGuts (ZMacros true) 0%Z (Some (zbuf [])) (plan1 true)
              heap0 0 1 1 eq_refl ltac:(lia))
    as (Hf & _ & Hout & _).
  split; [exact Hf | exact Hout].
Defined.

Lemma kiss_fft_stride_failure_untouched_witness :
  exists msg,
    @kiss_fft_stride ZGuts (ZMacros false) (plan4 false) (Some 0) (Some 0) 1 heap0
    = Failed msg heap0.
Proof.
  exact (@kiss_fft_stride_failure_untouched ZGuts (ZMacros false) (plan4 false)
           (Some 0) 1 heap0 (or_intror eq_refl)).
Defined.

End EngineFacts.

(** ** The engine run on exact data

    Checks of the embedding itself: on the modular backend the transform is
    the defining sum, for lengths that go through every butterfly, and the
    scenarios of the specification come out as stated. *)

Module ModularFacts.
Import Engine Modular.
Local Open Scope Z_scope.

(** 12 = 4 * 3: radix 4 over radix 3. *)
Example transform_12_is_dft : transform 12 0 (ramp 12) = Some (dft 12 false (ramp 12)).
Proof. vm_compute. reflexivity. Qed.

(** 10 = 2 * 5: radix 2 over radix 5, inverse direction. *)
Example transform_10_inverse_is_dft :
  transform 10 1 (ramp 10) = Some (dft 10 true (ramp 10)).
Proof. vm_compute. reflexivity. Qed.

(** 7: the generic butterfly. *)
Example transform_7_is_dft : transform 7 0 (ramp 7) = Some (dft 7 false (ramp 7)).
Proof. vm_compute. reflexivity. Qed.

(** Forward, then inverse: the input times the length. *)
Example round_trip_6 :
  match transform 6 0 (ramp 6) with
  | Some y => transform 6 1 y
  | None => None
  end = Some (scaled 6 (ramp 6)).
Proof. vm_compute. reflexivity. Qed.

(** N = 4, forward, unit impulse: flat spectrum. *)
Example impulse_4 :
  transform 4 0 [(1, 0); (0, 0); (0, 0); (0, 0)]
  = Some [(1, 0); (1, 0); (1, 0); (1, 0)].
Proof. vm_compute. reflexivity. Qed.

(** N = 8, forward, four ones then four zeros: the DC term is (4, 0). *)
Example step_8_dc :
  option_map (fun y => nth 0 y (0, 0))
    (transform 8 0 [(1, 0); (1, 0); (1, 0); (1, 0); (0, 0); (0, 0); (0, 0); (0, 0)])
  = Some (4, 0).
Proof. vm_compute. reflexivity. Qed.

End ModularFacts.

(** ** Packing four signals into SSE lanes *)

Module SSEToolsFacts.
Import SSETools EngineFacts.
Local Open Scope nat_scope.

Section Lanes.
Variable float : Type.

(** *** Real signals *)

Lemma pack128_loop_frame fuel : forall (source : farray float) d e s0 s1 s2 s3 target x,
  x < 4 * d \/ 4 * e <= x ->
  pack128_loop float fuel source d e s0 s1 s2 s3 target x = target x.
Proof.
  induction fuel as [| fuel IH]; intros source d e s0 s1 s2 s3 target x Hx;
    cbn [pack128_loop]; destruct (Nat.ltb_spec d e) as [Hde | Hde]; try reflexivity.
  rewrite IH by lia. unfold store_ps, fupd. eqb_lia. reflexivity.
Qed.

Lemma pack128_loop_at fuel : forall (source : farray float) d e s0 s1 s2 s3 target j,
  d + j < e -> e - d <= fuel ->
  let out := pack128_loop float fuel source d e s0 s1 s2 s3 target in
  out (4 * (d + j)) = source (s0 + j) /\
  out (4 * (d + j) + 1) = source (s1 + j) /\
  out (4 * (d + j) + 2) = source (s2 + j) /\
  out (4 * (d + j) + 3) = source (s3 + j).
Proof.
  induction fuel as [| fuel IH]; intros source d e s0 s1 s2 s3 target j Hj Hf;
    [lia |].
  cbn [pack128_loop]. destruct (Nat.ltb_spec d e) as [Hde | Hde]; [| lia].
  destruct j as [| j].
  - cbv zeta. rewrite !pack128_loop_frame by lia.
    unfold store_ps, fupd. replace (d + 0) with d by lia. rewrite !Nat.add_0_r.
    eqb_lia. repeat split; reflexivity.
  - specialize (IH source (d + 1) e (s0 + 1) (s1 + 1) (s2 + 1) (s3 + 1)
                  (store_ps float target d (source s3) (source s2) (source s1) (source s0))
                  j ltac:(lia) ltac:(lia)).
    cbv zeta in IH |- *.
    replace (d + S j) with (d + 1 + j) by lia.
    replace (s0 + S j) with (s0 + 1 + j) by lia.
    replace (s1 + S j) with (s1 + 1 + j) by lia.
    replace (s2 + S j) with (s2 + 1 + j) by lia.
    replace (s3 + S j) with (s3 + 1 + j) by lia.
    exact IH.
Qed.

(** The packed buffer: lane [l] of vector [j] is sample [j] of block [l]. *)
Lemma SSETools_pack128_at (target source : farray float) size128 j :
  j < size128 ->
  let out := SSETools_pack128 float target source size128 in
  out (4 * j) = source j /\
  out (4 * j + 1) = source (size128 + j) /\
  out (4 * j + 2) = source (2 * size128 + j) /\
  out (4 * j + 3) = source (3 * size128 + j).
Proof.
  intros Hj. unfold SSETools_pack128. cbv zeta.
  pose proof (pack128_loop_at size128 source 0 (0 + size128) 0 (0 + size128)
                (0 + size128 + size128) (0 + size128 + size128 + size128)
                target j ltac:(lia) ltac:(lia)) as H.
  cbv zeta in H. replace (0 + j) with j in H by lia.
  replace (0 + size128 + j) with (size128 + j) in H by lia.
  replace (0 + size128 + size128 + j) with (2 * size128 + j) in H by lia.
  replace (0 + size128 + size128 + size128 + j) with (3 * size128 + j) in H by lia.
  exact H.
Qed.

Lemma unpack128_loop_frame fuel : forall (source : farray float) size j t0 t1 t2 t3 target x,
  (forall j', j' < size - j ->
     x <> t0 + j' /\ x <> t1 + j' /\ x <> t2 + j' /\ x <> t3 + j') ->
  unpack128_loop float fuel source (4 * j) (0 + size * 4) t0 t1 t2 t3 target x
  = target x.
Proof.
  induction fuel as [| fuel IH]; intros source size j t0 t1 t2 t3 target x Hx;
    cbn [unpack128_loop];
    destruct (Nat.ltb_spec (4 * j) (0 + size * 4)) as [Hpe | Hpe]; try reflexivity.
  replace (4 * j + 4) with (4 * (j + 1)) by lia.
  rewrite IH.
  - pose proof (Hx 0 ltac:(lia)) as H0. rewrite !Nat.add_0_r in H0.
    unfold fupd. eqb_lia. reflexivity.
  - intros j' Hj'. pose proof (Hx (S j') ltac:(lia)). lia.
Qed.

Lemma unpack128_loop_at fuel : forall (source : farray float) size j target j',
  j + j' < size -> size - j <= fuel ->
  let out := unpack128_loop float fuel source (4 * j) (0 + size * 4)
               (0 + j) (0 + size + j) (0 + size + size + j)
               (0 + size + size + size + j) target in
  out (j + j') = source (4 * (j + j')) /\
  out (size + (j + j')) = source (4 * (j + j') + 1) /\
  out (2 * size + (j + j')) = source (4 * (j + j') + 2) /\
  out (3 * size + (j + j')) = source (4 * (j + j') + 3).
Proof.
  induction fuel as [| fuel IH]; intros source size j target j' Hj Hf; [lia |].
  cbn [unpack128_loop].
  destruct (Nat.ltb_spec (4 * j) (0 + size * 4)) as [Hpe | Hpe]; [| lia].
  replace (4 * j + 4) with (4 * (j + 1)) by lia.
  destruct j' as [| j'].
  - cbv zeta. rewrite !unpack128_loop_frame by (intros; lia).
    rewrite !Nat.add_0_r. unfold fupd. eqb_lia. repeat split; reflexivity.
  - replace (0 + j + 1) with (0 + (j + 1)) by lia.
    replace (0 + size + j + 1) with (0 + size + (j + 1)) by lia.
    replace (0 + size + size + j + 1) with (0 + size + size + (j + 1)) by lia.
    replace (0 + size + size + size + j + 1)
      with (0 + size + size + size + (j + 1)) by lia.
    replace (j + S j') with (j + 1 + j') by lia.
    apply IH; lia.
Qed.

(** The unpacked buffer: sample [j] of block [l] is lane [l] of vector [j]. *)
Lemma SSETools_unpack128_at (target source : farray float) size128 j :
  j < size128 ->
  let out := SSETools_unpack128 float target source size128 in
  out j = source (4 * j) /\
  out (size128 + j) = source (4 * j + 1) /\
  out (2 * size128 + j) = source (4 * j + 2) /\
  out (3 * size128 + j) = source (4 * j + 3).
Proof.
  intros Hj. unfold SSETools_unpack128. cbv zeta.
  pose proof (unpack128_loop_at size128 source size128 0 target j
                ltac:(lia) ltac:(lia)) as H.
  cbv zeta in H. rewrite !Nat.add_0_r in H.
  change (4 * 0) with 0 in H. change (0 + j) with j in H. exact H.
Qed.

(** *** Complex signals *)

Lemma pack_complex_loop_frame fuel :
  forall (f0 f1 f2 f3 : farray float) N j r0 r1 r2 r3 i0 i1 i2 i3 target x,
  x < 8 * j \/ 8 * N <= x ->
  pack_complex_loop float fuel f0 f1 f2 f3 (2 * j) (0 + N * 2)
    r0 r1 r2 r3 i0 i1 i2 i3 target x = target x.
Proof.
  induction fuel as [| fuel IH];
    intros f0 f1 f2 f3 N j r0 r1 r2 r3 i0 i1 i2 i3 target x Hx;
    cbn [pack_complex_loop];
    destruct (Nat.ltb_spec (2 * j) (0 + N * 2)) as [Hde | Hde]; try reflexivity.
  replace (2 * j + 1 + 1) with (2 * (j + 1)) by lia.
  rewrite IH by lia. unfold store_ps, fupd. eqb_lia. reflexivity.
Qed.

Lemma pack_complex_loop_at fuel :
  forall (f0 f1 f2 f3 : farray float) N j r0 r1 r2 r3 i0 i1 i2 i3 target j',
  j + j' < N -> N - j <= fuel ->
  let out := pack_complex_loop float fuel f0 f1 f2 f3 (2 * j) (0 + N * 2)
               r0 r1 r2 r3 i0 i1 i2 i3 target in
  (out (8 * (j + j')) = f0 (r0 + 2 * j') /\
   out (8 * (j + j') + 1) = f1 (r1 + 2 * j') /\
   out (8 * (j + j') + 2) = f2 (r2 + 2 * j') /\
   out (8 * (j + j') + 3) = f3 (r3 + 2 * j')) /\
  (out (8 * (j + j') + 4) = f0 (i0 + 2 * j') /\
   out (8 * (j + j') + 5) = f1 (i1 + 2 * j') /\
   out (8 * (j + j') + 6) = f2 (i2 + 2 * j') /\
   out (8 * (j + j') + 7) = f3 (i3 + 2 * j')).
Proof.
  induction fuel as [| fuel IH];
    intros f0 f1 f2 f3 N j r0 r1 r2 r3 i0 i1 i2 i3 target j' Hj Hf; [lia |].
  cbn [pack_complex_loop].
  destruct (Nat.ltb_spec (2 * j) (0 + N * 2)) as [Hde | Hde]; [| lia].
  replace (2 * j + 1 + 1) with (2 * (j + 1)) by lia.
  destruct j' as [| j'].
  - cbv zeta. rewrite !pack_complex_loop_frame by lia.
    unfold store_ps, fupd. rewrite !Nat.add_0_r.
    eqb_lia. repeat split; reflexivity.
  - replace (j + S j') with (j + 1 + j') by lia.
    replace (r0 + 2 * S j') with (r0 + 2 + 2 * j') by lia.
    replace (r1 + 2 * S j') with (r1 + 2 + 2 * j') by lia.
    replace (r2 + 2 * S j') with (r2 + 2 + 2 * j') by lia.
    replace (r3 + 2 * S j') with (r3 + 2 + 2 * j') by lia.
    replace (i0 + 2 * S j') with (i0 + 2 + 2 * j') by lia.
    replace (i1 + 2 * S j') with (i1 + 2 + 2 * j') by lia.
    replace (i2 + 2 * S j') with (i2 + 2 + 2 * j') by lia.
    replace (i3 + 2 * S j') with (i3 + 2 + 2 * j') by lia.
    apply IH; lia.
Qed.

Lemma unpack_complex_loop_frame fuel :
  forall (source : farray float) N j r0 r1 r2 r3 i0 i1 i2 i3 t0 t1 t2 t3 x,
  (forall j', j' < N - j ->
     (x <> r0 + 2 * j' /\ x <> i0 + 2 * j') /\ (x <> r1 + 2 * j' /\ x <> i1 + 2 * j') /\
     (x <> r2 + 2 * j' /\ x <> i2 + 2 * j') /\ (x <> r3 + 2 * j' /\ x <> i3 + 2 * j')) ->
  let out := unpack_complex_loop float fuel source (8 * j) (0 + N * 4 * 2)
               r0 r1 r2 r3 i0 i1 i2 i3 t0 t1 t2 t3 in
  q0 float out x = t0 x /\ q1 float out x = t1 x /\
  q2 float out x = t2 x /\ q3 float out x = t3 x.
Proof.
  induction fuel as [| fuel IH];
    intros source N j r0 r1 r2 r3 i0 i1 i2 i3 t0 t1 t2 t3 x Hx;
    cbn [unpack_complex_loop];
    destruct (Nat.ltb_spec (8 * j) (0 + N * 4 * 2)) as [Hde | Hde];
    try (cbv zeta; repeat split; reflexivity).
  replace (8 * j + 4 + 4) with (8 * (j + 1)) by lia.
  cbv zeta.
  match goal with
  | |- context [unpack_complex_loop float fuel source (8 * (j + 1)) _
                  ?a0 ?a1 ?a2 ?a3 ?b0 ?b1 ?b2 ?b3 ?u0 ?u1 ?u2 ?u3] =>
      destruct (IH source N (j + 1) a0 a1 a2 a3 b0 b1 b2 b3 u0 u1 u2 u3 x)
        as (E0 & E1 & E2 & E3);
        [intros j' Hj'; pose proof (Hx (S j') ltac:(lia)); lia |]
  end.
  cbv zeta in E0, E1, E2, E3. rewrite E0, E1, E2, E3.
  pose proof (Hx 0 ltac:(lia)) as H0. rewrite !Nat.add_0_r in H0.
  unfold fupd. eqb_lia. repeat split; reflexivity.
Qed.

Lemma unpack_complex_loop_at fuel :
  forall (source : farray float) N j t0 t1 t2 t3 j',
  j + j' < N -> N - j <= fuel ->
  let out := unpack_complex_loop float fuel source (8 * j) (0 + N * 4 * 2)
               (2 * j) (2 * j) (2 * j) (2 * j)
               (2 * j + 1) (2 * j + 1) (2 * j + 1) (2 * j + 1) t0 t1 t2 t3 in
  (q0 float out (2 * (j + j')) = source (8 * (j + j')) /\
   q1 float out (2 * (j + j')) = source (8 * (j + j') + 1) /\
   q2 float out (2 * (j + j')) = source (8 * (j + j') + 2) /\
   q3 float out (2 * (j + j')) = source (8 * (j + j') + 3)) /\
  (q0 float out (2 * (j + j') + 1) = source (8 * (j + j') + 4) /\
   q1 float out (2 * (j + j') + 1) = source (8 * (j + j') + 5) /\
   q2 float out (2 * (j + j') + 1) = source (8 * (j + j') + 6) /\
   q3 float out (2 * (j + j') + 1) = source (8 * (j + j') + 7)).
Proof.
  induction fuel as [| fuel IH]; intros source N j t0 t1 t2 t3 j' Hj Hf; [lia |].
  cbn [unpack_complex_loop].
  destruct (Nat.ltb_spec (8 * j) (0 + N * 4 * 2)) as [Hde | Hde]; [| lia].
  replace (8 * j + 4 + 4) with (8 * (j + 1)) by lia.
  replace (2 * j + 2) with (2 * (j + 1)) by lia.
  replace (2 * j + 1 + 2) with (2 * (j + 1) + 1) by lia.
  cbv zeta.
  destruct j' as [| j'].
  - rewrite !Nat.add_0_r.
    match goal with
    | |- context [unpack_complex_loop float fuel source (8 * (j + 1)) ?e
                    ?a0 ?a1 ?a2 ?a3 ?b0 ?b1 ?b2 ?b3 ?u0 ?u1 ?u2 ?u3] =>
        pose proof (unpack_complex_loop_frame fuel source N (j + 1)
                      a0 a1 a2 a3 b0 b1 b2 b3 u0 u1 u2 u3) as Hfr;
        set (out := unpack_complex_loop float fuel source (8 * (j + 1)) e
                      a0 a1 a2 a3 b0 b1 b2 b3 u0 u1 u2 u3) in *
    end.
    cbv zeta in Hfr.
    destruct (Hfr (2 * j) ltac:(intros; lia)) as (E0 & E1 & E2 & E3).
    destruct (Hfr (2 * j + 1) ltac:(intros; lia)) as (E0' & E1' & E2' & E3').
    rewrite E0, E1, E2, E3, E0', E1', E2', E3'.
    unfold fupd. eqb_lia. repeat split; f_equal; lia.
  - replace (j + S j') with (j + 1 + j') by lia.
    apply IH; lia.
Qed.

Lemma SSETools_pack_2_128_complex_at (target s0 s1 s2 s3 : farray float) n j :
  j < n ->
  let out := SSETools_pack_2_128_complex float target s0 s1 s2 s3 n in
  (out (8 * j) = s0 (2 * j) /\ out (8 * j + 1) = s1 (2 * j) /\
   out (8 * j + 2) = s2 (2 * j) /\ out (8 * j + 3) = s3 (2 * j)) /\
  (out (8 * j + 4) = s0 (2 * j + 1) /\ out (8 * j + 5) = s1 (2 * j + 1) /\
   out (8 * j + 6) = s2 (2 * j + 1) /\ out (8 * j + 7) = s3 (2 * j + 1)).
Proof.
  intros Hj. unfold SSETools_pack_2_128_complex. cbv zeta.
  pose proof (pack_complex_loop_at n s0 s1 s2 s3 n 0 0 0 0 0 (0 + 1) (0 + 1) (0 + 1)
                (0 + 1) target j ltac:(lia) ltac:(lia)) as H.
  cbv zeta in H. change (2 * 0) with 0 in H. change (0 + j) with j in H.
  change (0 + 2 * j) with (2 * j) in H.
  replace (0 + 1 + 2 * j) with (2 * j + 1) in H by lia.
  exact H.
Qed.

Lemma SSETools_unpack_2_128_complex_at (t0 t1 t2 t3 source : farray float) n j :
  j < n ->
  let out := SSETools_unpack_2_128_complex float t0 t1 t2 t3 source n in
  (q0 float out (2 * j) = source (8 * j) /\
   q1 float out (2 * j) = source (8 * j + 1) /\
   q2 float out (2 * j) = source (8 * j + 2) /\
   q3 float out (2 * j) = source (8 * j + 3)) /\
  (q0 float out (2 * j + 1) = source (8 * j + 4) /\
   q1 float out (2 * j + 1) = source (8 * j + 5) /\
   q2 float out (2 * j + 1) = source (8 * j + 6) /\
   q3 float out (2 * j + 1) = source (8 * j + 7)).
Proof.
  intros Hj. unfold SSETools_unpack_2_128_complex. cbv zeta.
  pose proof (unpack_complex_loop_at n source n 0 t0 t1 t2 t3 j
                ltac:(lia) ltac:(lia)) as H.
  cbv zeta in H. change (8 * 0) with 0 in H. change (2 * 0) with 0 in H.
  change (0 + j) with j in H. exact H.
Qed.

(** Position [k] as vector [k / w] and lane [k mod w]. *)
Lemma split_index w k n :
  0 < w -> k < w * n -> k = w * (k / w) + k mod w /\ k / w < n /\ k mod w < w.
Proof.
  intros Hw Hk.
  pose proof (Nat.div_mod_eq k w) as Hdm.
  pose proof (Nat.mod_upper_bound k w ltac:(lia)) as Hub.
  split; [exact Hdm |]. split; [| exact Hub].
  apply Nat.Div0.div_lt_upper_bound. exact Hk.
Qed.

(** C10.  Packing and unpacking are mutually inverse on the elements they
    handle.  Real: unpacking the buffer packed from [source] gives back each
    of the 4 * size128 samples of the four blocks, and packing an unpacked
    buffer gives back its 4 * size128 floats.  Complex: unpacking the buffer
    packed from four interleaved (real, imaginary) signals gives back each
    of their 2 * num_elem_fft floats, and packing what was unpacked from a
    buffer gives back its 8 * num_elem_fft floats.  The contents the target
    arrays held before do not matter. *)
Theorem SSETools_pack_unpack_inverse :
  (forall (target tmp source : farray float) size128 k,
     k < 4 * size128 ->
     SSETools_unpack128 float target (SSETools_pack128 float tmp source size128)
       size128 k = source k) /\
  (forall (target tmp packed : farray float) size128 k,
     k < 4 * size128 ->
     SSETools_pack128 float target (SSETools_unpack128 float tmp packed size128)
       size128 k = packed k) /\
  (forall (t0 t1 t2 t3 tmp s0 s1 s2 s3 : farray float) num_elem_fft k,
     k < 2 * num_elem_fft ->
     let out :=
       SSETools_unpack_2_128_complex float t0 t1 t2 t3
         (SSETools_pack_2_128_complex float tmp s0 s1 s2 s3 num_elem_fft)
         num_elem_fft in
     q0 float out k = s0 k /\ q1 float out k = s1 k /\
     q2 float out k = s2 k /\ q3 float out k = s3 k) /\
  (forall (t0 t1 t2 t3 tmp packed : farray float) num_elem_fft k,
     k < 8 * num_elem_fft ->
     let out := SSETools_unpack_2_128_complex float t0 t1 t2 t3 packed num_elem_fft in
     SSETools_pack_2_128_complex float tmp (q0 float out) (q1 float out)
       (q2 float out) (q3 float out) num_elem_fft k = packed k).
Proof.
  split; [| split; [| split]].
  - intros target tmp source size k Hk.
    destruct (block_column 0 size 4 k ltac:(lia)) as (q & j & Hj & Hq & ->).
    destruct (SSETools_unpack128_at target (SSETools_pack128 float tmp source size)
                size j Hj) as (U0 & U1 & U2 & U3).
    destruct (SSETools_pack128_at tmp source size j Hj) as (P0 & P1 & P2 & P3).
    assert (Hc : q = 0 \/ q = 1 \/ q = 2 \/ q = 3) by lia.
    destruct Hc as [-> | [-> | [-> | ->]]].
    + replace (0 + 0 * size + j) with j by lia. rewrite U0. exact P0.
    + replace (0 + 1 * size + j) with (size + j) by lia. rewrite U1. exact P1.
    + replace (0 + 2 * size + j) with (2 * size + j) by lia. rewrite U2. exact P2.
    + replace (0 + 3 * size + j) with (3 * size + j) by lia. rewrite U3. exact P3.
  - intros target tmp packed size k Hk.
    destruct (split_index 4 k size ltac:(lia) Hk) as (E & Hj & Hl).
    set (j := k / 4) in *. set (l := k mod 4) in *.
    destruct (SSETools_pack128_at target (SSETools_unpack128 float tmp packed size)
                size j Hj) as (P0 & P1 & P2 & P3).
    destruct (SSETools_unpack128_at tmp packed size j Hj) as (U0 & U1 & U2 & U3).
    assert (Hc : l = 0 \/ l = 1 \/ l = 2 \/ l = 3) by lia.
    rewrite E. destruct Hc as [-> | [-> | [-> | ->]]].
    + rewrite Nat.add_0_r, P0. exact U0.
    + rewrite P1. exact U1.
    + rewrite P2. exact U2.
    + rewrite P3. exact U3.
  - intros t0 t1 t2 t3 tmp s0 s1 s2 s3 n k Hk out.
    destruct (split_index 2 k n ltac:(lia) Hk) as (E & Hj & Hl).
    set (j := k / 2) in *. set (l := k mod 2) in *.
    destruct (SSETools_unpack_2_128_complex_at t0 t1 t2 t3
                (SSETools_pack_2_128_complex float tmp s0 s1 s2 s3 n) n j Hj)
      as ((U0 & U1 & U2 & U3) & (V0 & V1 & V2 & V3)).
    destruct (SSETools_pack_2_128_complex_at tmp s0 s1 s2 s3 n j Hj)
      as ((P0 & P1 & P2 & P3) & (R0 & R1 & R2 & R3)).
    fold out in U0, U1, U2, U3, V0, V1, V2, V3.
    assert (Hc : l = 0 \/ l = 1) by lia.
    rewrite E. destruct Hc as [-> | ->].
    + rewrite Nat.add_0_r, U0, U1, U2, U3. repeat split; assumption.
    + rewrite V0, V1, V2, V3. repeat split; assumption.
  - intros t0 t1 t2 t3 tmp packed n k Hk out.
    destruct (split_index 8 k n ltac:(lia) Hk) as (E & Hj & Hl).
    set (j := k / 8) in *. set (l := k mod 8) in *.
    destruct (SSETools_pack_2_128_complex_at tmp (q0 float out) (q1 float out)
                (q2 float out) (q3 float out) n j Hj)
      as ((P0 & P1 & P2 & P3) & (R0 & R1 & R2 & R3)).
    destruct (SSETools_unpack_2_128_complex_at t0 t1 t2 t3 packed n j Hj)
      as ((U0 & U1 & U2 & U3) & (V0 & V1 & V2 & V3)).
    fold out in U0, U1, U2, U3, V0, V1, V2, V3.
    assert (Hc : l = 0 \/ l = 1 \/ l = 2 \/ l = 3 \/ l = 4 \/ l = 5 \/ l = 6 \/ l = 7)
      by lia.
    rewrite E. destruct Hc as [-> | [-> | [-> | [-> | [-> | [-> | [-> | ->]]]]]]].
    + rewrite Nat.add_0_r, P0. exact U0.
    + rewrite P1. exact U1.
    + rewrite P2. exact U2.
    + rewrite P3. exact U3.
    + rewrite R0. exact V0.
    + rewrite R1. exact V1.
    + rewrite R2. exact V2.
    + rewrite R3. exact V3.
Qed.

End Lanes.

Lemma SSETools_pack_unpack_inverse_witness :
  SSETools_unpack128 nat (fun _ => 0)
    (SSETools_pack128 nat (fun _ => 0) (fun k => 10 + k) 2) 2 5 = 10 + 5.
Proof.
  exact (proj1 (SSETools_pack_unpack_inverse nat) (fun _ => 0) (fun _ => 0)
           (fun k => 10 + k) 2 5 ltac:(lia)).
Defined.

End SSEToolsFacts.

(** * Further results *)

(** ** The factorizer: what the buffer holds *)

Module FactorMore.
Import CInt CIntFacts Factor FactorFacts.
Local Open Scope Z_scope.

Lemma emits_bounds fs n p l :
  emits fs n p l -> 2 <= n ->
  Forall (fun pm => 2 <= fst pm <= n /\ 1 <= snd pm /\ 2 * snd pm <= n) l /\
  2 ^ Z.of_nat (List.length l) <= n.
Proof.
  induction 1 as [n p p' Hstep Hle | n p p' l Hstep Hgt Hem IH]; intros Hn;
    pose proof Hstep as (Hd & Hpos & _ & Hcase);
    pose proof (quot_exact n p' ltac:(lia) Hpos Hd) as Hex;
    assert (Hp2 : 2 <= p')
      by (destruct Hcase as [[Hok _] | [-> _]]; [eapply trial_ok_pos; exact Hok | lia]).
  - assert (Hq : Z.quot n p' = 1) by nia. rewrite Hq in *.
    split; [constructor; [cbn [fst snd]; lia | constructor] |].
    simpl List.length. change (2 ^ Z.of_nat 1) with 2. lia.
  - destruct (IH ltac:(lia)) as [Hall Hpow]. split.
    + constructor.
      { cbn [fst snd]. assert (p' <= p' * Z.quot n p') by nia.
        assert (2 * Z.quot n p' <= p' * Z.quot n p') by nia. lia. }
      eapply Forall_impl; [| exact Hall]. cbn beta. intros [q m] H. cbn [fst snd] in *. nia.
    + simpl List.length. rewrite Nat2Z.inj_succ, Z.pow_succ_r by lia. nia.
Qed.

(** Every radix is at least 2 and every remaining length at least 1, none
    exceeds N, and the number of pairs is at most log2 N: 30 pairs at most
    for an [int], so a buffer of 2 * 32 [int]s is never overrun. *)
Theorem kf_factor_bounded N :
  2 <= N <= INT_MAX ->
  exists l, kf_factor N = Some l /\
    Forall (fun pm => 2 <= fst pm <= N /\ 1 <= snd pm /\ 2 * snd pm <= N) l /\
    2 ^ Z.of_nat (List.length l) <= N /\ (List.length l <= 30)%nat.
Proof.
  intros H. destruct (kf_factor_emits N ltac:(lia)) as (l & E & Hem).
  destruct (emits_bounds _ _ _ _ Hem ltac:(lia)) as [Hall Hpow].
  exists l. repeat split; try assumption.
  destruct (le_lt_dec (List.length l) 30) as [Hle | Hgt]; [exact Hle | exfalso].
  assert (2 ^ 31 <= 2 ^ Z.of_nat (List.length l)) by (apply Z.pow_le_mono_r; lia).
  unfold INT_MAX in H. change (2 ^ 31) with 2147483648 in *. lia.
Qed.

Lemma kf_factor_bounded_witness :
  exists l, kf_factor 360 = Some l /\
    Forall (fun pm => 2 <= fst pm <= 360 /\ 1 <= snd pm /\ 2 * snd pm <= 360) l /\
    2 ^ Z.of_nat (List.length l) <= 360 /\ (List.length l <= 30)%nat.
Proof.
  apply (kf_factor_bounded 360). unfold INT_MAX. lia.
Defined.

(** A prime length is not decomposed. *)
Lemma kf_factor_prime_single N :
  Z.prime N -> N <= INT_MAX -> kf_factor N = Some [(N, 1)].
Proof.
  intros Hpr Hmax. pose proof Hpr as [H1 Hnd].
  destruct (kf_factor_emits N ltac:(lia)) as (l & E & Hem). rewrite E. f_equal.
  assert (Hfirst : forall p', step_ok (floor_sqrt N) N 4 p' -> p' = N).
  { intros p' (Hd & Hpos & _ & [[Hok _] | [-> _]]); [| reflexivity].
    pose proof (trial_ok_pos _ _ Hok) as Hp2.
    pose proof (Z.divide_pos_le p' N ltac:(lia) Hd).
    destruct (Z.eq_dec p' N) as [Eq | Hne]; [exact Eq | exfalso].
    apply (Hnd p'); [lia | exact Hd]. }
  inversion Hem as [n p p' Hstep Hle | n p p' l' Hstep Hgt Hem']; subst.
  - rewrite (Hfirst p' Hstep), Z.quot_same by lia. reflexivity.
  - rewrite (Hfirst p' Hstep), Z.quot_same in Hgt by lia. lia.
Qed.

(** The buffer holds a single pair exactly for the lengths 4 and the primes:
    then one butterfly does the whole transform. *)
Theorem kf_factor_single_pair N :
  2 <= N <= INT_MAX ->
  (kf_factor N = Some [(N, 1)] <-> N = 4 \/ Z.prime N).
Proof.
  intros H. split.
  - intros E. destruct (kf_factor_emits N ltac:(lia)) as (l & E' & Hem).
    destruct (emits_early_stop _ _ _ _ Hem ltac:(lia)) as (_ & Hrad & _).
    rewrite E in E'. injection E' as <-.
    inversion Hrad as [| x l' Hx _]; subst. exact Hx.
  - intros [-> | Hpr]; [reflexivity | apply kf_factor_prime_single; [exact Hpr | lia]].
Qed.

Lemma kf_factor_single_pair_witness :
  kf_factor 17 = Some [(17, 1)] <-> 17 = 4 \/ Z.prime 17.
Proof.
  apply (kf_factor_single_pair 17). unfold INT_MAX. lia.
Defined.

Lemma emits_divides fs n p l :
  emits fs n p l -> 1 <= n -> Forall (fun pm => (fst pm | n)) l.
Proof.
  induction 1 as [n p p' Hstep Hle | n p p' l Hstep Hgt Hem IH]; intros Hn;
    pose proof Hstep as (Hd & Hpos & _);
    pose proof (quot_exact n p' ltac:(lia) Hpos Hd) as Hex.
  - constructor; [exact Hd | constructor].
  - constructor; [exact Hd |].
    eapply Forall_impl; [| apply IH; lia]. cbn beta. intros pm Hpm.
    eapply Z.divide_trans; [exact Hpm |]. exists p'. lia.
Qed.

Lemma odd_radices n (l : list (Z * Z)) :
  ~ (2 | n) -> Forall (fun pm => (fst pm | n)) l ->
  Forall (fun q => Z.odd q = true) (map fst l).
Proof.
  intros Hodd Hall. induction Hall as [| pm l Hd _ IH]; simpl; constructor; [| exact IH].
  destruct (Z.odd (fst pm)) eqn:E; [reflexivity | exfalso].
  apply Hodd. eapply Z.divide_trans; [| exact Hd].
  rewrite <- Z.negb_even in E. apply Bool.negb_false_iff, Z.even_spec in E.
  destruct E as [k ->]. exists k. lia.
Qed.

Lemma emits_shape fs n p l :
  emits fs n p l -> 2 <= n ->
  exists a b odds,
    map fst l = repeat 4 a ++ repeat 2 b ++ odds /\ (b <= 1)%nat /\
    Forall (fun q => Z.odd q = true) odds.
Proof.
  intros Hem. pose proof Hem as Hem0. revert Hem0.
  induction Hem as [n p p' Hstep Hle | n p p' l Hstep Hgt Hem IH]; intros Hem0 Hn.
  - destruct (step_ok_radix _ _ _ _ Hn Hstep) as [-> | Hpr].
    + exists 1%nat, 0%nat, []. repeat split; [lia | constructor].
    + destruct (Z.eq_dec p' 2) as [-> | N2].
      * exists 0%nat, 1%nat, []. repeat split; [lia | constructor].
      * exists 0%nat, 0%nat, [p']. repeat split; [lia |].
        constructor; [| constructor].
        destruct Hpr as [H1 Hnd].
        destruct (Z.odd p') eqn:E; [reflexivity | exfalso].
        rewrite <- Z.negb_even in E. apply Bool.negb_false_iff, Z.even_spec in E.
        destruct E as [k Hk]. apply (Hnd 2); [lia | exists k; lia].
  - pose proof Hstep as (Hd & Hpos & _ & Hcase).
    pose proof (quot_exact n p' ltac:(lia) Hpos Hd) as Hex.
    destruct (Z.eq_dec p' 4) as [-> | N4].
    + destruct (IH Hem ltac:(lia)) as (a & b & odds & E & Hb & Hodd).
      exists (S a), b, odds. simpl. rewrite E. repeat split; assumption.
    + destruct Hcase as [[Hok Hs] | [-> _]];
        [| rewrite Z.quot_same in Hgt by lia; lia].
      destruct (Hs N4) as [H4 Hdiv].
      pose proof (emits_divides _ _ _ _ Hem ltac:(lia)) as Htail.
      assert (Hq : ~ (2 | Z.quot n p')).
      { intros [k Hk]. destruct (Z.eq_dec p' 2) as [-> | N2].
        - apply H4. exists k. lia.
        - apply (Hdiv 2); [pose proof (trial_ok_pos _ _ Hok); lia |].
          exists (k * p'). nia. }
      pose proof (odd_radices _ _ Hq Htail) as Hrest.
      destruct (Z.eq_dec p' 2) as [-> | N2].
      * exists 0%nat, 1%nat, (map fst l). repeat split; [lia | exact Hrest].
      * exists 0%nat, 0%nat, (p' :: map fst l). repeat split; [lia |].
        constructor; [| exact Hrest].
        destruct Hok as [-> | [[-> _] | [_ Ho]]]; [lia | lia | exact Ho].
Qed.

(** The radices are a run of 4s, then at most one 2, then odd numbers only:
    a radix-2 butterfly is used at most once in a transform, and only when
    the radix-4 butterflies have taken every other factor of two. *)
Theorem kf_factor_shape N :
  2 <= N <= INT_MAX ->
  exists l a b odds,
    kf_factor N = Some l /\
    map fst l = repeat 4 a ++ repeat 2 b ++ odds /\ (b <= 1)%nat /\
    Forall (fun q => Z.odd q = true) odds.
Proof.
  intros H. destruct (kf_factor_emits N ltac:(lia)) as (l & E & Hem).
  destruct (emits_shape _ _ _ _ Hem ltac:(lia)) as (a & b & odds & Hs).
  exists l, a, b, odds. split; [exact E | exact Hs].
Qed.

Lemma kf_factor_shape_witness :
  exists l a b odds,
    kf_factor 1440 = Some l /\
    map fst l = repeat 4 a ++ repeat 2 b ++ odds /\ (b <= 1)%nat /\
    Forall (fun q => Z.odd q = true) odds.
Proof.
  apply (kf_factor_shape 1440). unfold INT_MAX. lia.
Defined.

End FactorMore.

(** ** The length advisory: fixed points, bound, negative lengths *)

Module FastSizeMore.
Import CInt CIntFacts FastSize FastSizeFacts.
Local Open Scope Z_scope.

(** The inner loop on a negative number is the loop on its opposite, with
    the sign put back: C's [%] and [/] truncate towards zero. *)
Lemma strip_opp fuel : forall d m,
  2 <= d -> strip fuel d (- m) = option_map Z.opp (strip fuel d m).
Proof.
  induction fuel as [| fuel IH]; intros d m Hd; simpl;
    rewrite Z.rem_opp_l by lia;
    replace (- Z.rem m d =? 0) with (Z.rem m d =? 0)
      by (destruct (Z.eqb_spec (Z.rem m d) 0), (Z.eqb_spec (- Z.rem m d) 0); lia || reflexivity);
    destruct (Z.rem m d =? 0); try reflexivity.
  rewrite Z.quot_opp_l by lia. apply IH. exact Hd.
Qed.

Lemma strip_negative fuel d m :
  2 <= d -> m < 0 -> Z.log2 (- m) < Z.of_nat fuel ->
  exists m', strip fuel d m = Some m' /\ m <= m' < 0.
Proof.
  intros Hd Hm Hlog.
  destruct (strip_spec fuel d (- m) Hd ltac:(lia) Hlog) as (m' & k & E & Hr & _).
  exists (- m'). replace m with (- - m) at 1 by lia.
  rewrite strip_opp, E by exact Hd. split; [reflexivity | lia].
Qed.

Lemma strip_sign fuel : forall d m m',
  2 <= d -> strip fuel d m = Some m' -> m < 0 -> m' < 0.
Proof.
  induction fuel as [| fuel IH]; intros d m m' Hd E Hm; simpl in E;
    destruct (Z.eqb_spec (Z.rem m d) 0) as [Hz | Hnz];
    try discriminate; try (injection E as <-; exact Hm).
  apply (IH d (Z.quot m d) m' Hd E).
  pose proof (Z.quot_rem' m d) as Hqr. rewrite Hz in Hqr. nia.
Qed.

(** A negative length is accepted as it is: what the three loops leave is
    negative, hence [<= 1]. *)
Theorem kiss_fft_next_fast_size_negative n fuel :
  INT_MIN <= n < 0 -> (32 <= fuel)%nat ->
  kiss_fft_next_fast_size fuel n = Some n.
Proof.
  intros Hn Hf. destruct fuel as [| fuel]; [lia |].
  assert (Hlog : forall m, n <= m < 0 -> Z.log2 (- m) < Z.of_nat (S fuel)).
  { intros m Hm. pose proof (Z.log2_le_mono (- m) (- INT_MIN) ltac:(lia)) as Hl.
    vm_compute (Z.log2 (- INT_MIN)) in Hl. lia. }
  destruct (strip_negative (S fuel) 2 n ltac:(lia) ltac:(lia)) as (m2 & E2 & R2);
    [apply Hlog; lia |].
  destruct (strip_negative (S fuel) 3 m2 ltac:(lia) ltac:(lia)) as (m3 & E3 & R3);
    [apply Hlog; lia |].
  destruct (strip_negative (S fuel) 5 m3 ltac:(lia) ltac:(lia)) as (m5 & E5 & R5);
    [apply Hlog; lia |].
  cbn [kiss_fft_next_fast_size]. rewrite E2, E3, E5.
  destruct (Z.leb_spec m5 1); [reflexivity | lia].
Qed.

Lemma kiss_fft_next_fast_size_negative_witness :
  kiss_fft_next_fast_size 40 (-1000) = Some (-1000).
Proof.
  apply (kiss_fft_next_fast_size_negative (-1000) 40); [unfold INT_MIN; lia | lia].
Defined.

Lemma next_fast_negative_result fuel n m :
  n < 0 -> kiss_fft_next_fast_size fuel n = Some m -> m = n.
Proof.
  intros Hn E. destruct fuel as [| fuel]; [discriminate |].
  cbn [kiss_fft_next_fast_size] in E.
  destruct (strip (S fuel) 2 n) as [m2 |] eqn:E2; [| discriminate].
  destruct (strip (S fuel) 3 m2) as [m3 |] eqn:E3; [| discriminate].
  destruct (strip (S fuel) 5 m3) as [m5 |] eqn:E5; [| discriminate].
  pose proof (strip_sign _ 2 _ _ ltac:(lia) E2 Hn) as H2.
  pose proof (strip_sign _ 3 _ _ ltac:(lia) E3 H2) as H3.
  pose proof (strip_sign _ 5 _ _ ltac:(lia) E5 H3) as H5.
  destruct (Z.leb_spec m5 1); [congruence | lia].
Qed.

(** The search only moves upwards: what it returns for a positive [n] is
    [n] or larger, unless the increment has run over [INT_MAX]. *)
Lemma next_fast_result_ge fuel : forall n m,
  1 <= n <= INT_MAX -> kiss_fft_next_fast_size fuel n = Some m ->
  n <= m \/ m = INT_MIN.
Proof.
  induction fuel as [| fuel IH]; intros n m Hn E; [discriminate |].
  cbn [kiss_fft_next_fast_size] in E.
  destruct (strip (S fuel) 2 n) as [m2 |]; [| discriminate].
  destruct (strip (S fuel) 3 m2) as [m3 |]; [| discriminate].
  destruct (strip (S fuel) 5 m3) as [m5 |]; [| discriminate].
  destruct (m5 <=? 1).
  - injection E as <-. left. lia.
  - destruct (Z.eq_dec n INT_MAX) as [-> | Hne].
    + right. change (wrap_int (INT_MAX + 1)) with INT_MIN in E.
      apply next_fast_negative_result in E; [exact E | unfold INT_MIN; lia].
    + rewrite wrap_int_id in E by (unfold INT_MIN, INT_MAX in *; lia).
      apply IH in E; [| lia].
      destruct E as [H | H]; [left; lia | right; exact H].
Qed.

(** The lengths the advisory returns unchanged are exactly those whose only
    prime factors are 2, 3 and 5. *)
Theorem kiss_fft_next_fast_size_fixed n fuel :
  1 <= n <= INT_MAX -> (32 <= fuel)%nat ->
  (kiss_fft_next_fast_size fuel n = Some n <-> only_235 n).
Proof.
  intros Hn Hf. destruct fuel as [| fuel]; [lia |].
  assert (Hlog : Z.log2 n < Z.of_nat (S fuel)).
  { pose proof (Z.log2_le_mono n INT_MAX ltac:(lia)) as Hl.
    vm_compute (Z.log2 INT_MAX) in Hl. lia. }
  destruct (strip_235 (S fuel) n ltac:(lia) Hlog)
    as (m2 & m3 & m5 & E2 & E3 & E5 & H1 & Hs & Hns).
  cbn [kiss_fft_next_fast_size]. rewrite E2, E3, E5.
  destruct (Z.leb_spec m5 1) as [Hle | Hgt].
  - split; [intros _ | reflexivity]. apply only_235_smooth, Hs. lia.
  - split; [intros E; exfalso | intros Ho; exfalso; exact (Hns Hgt Ho)].
    destruct (Z.eq_dec n INT_MAX) as [-> | Hne].
    + change (wrap_int (INT_MAX + 1)) with INT_MIN in E.
      apply next_fast_negative_result in E; [discriminate | reflexivity].
    + rewrite wrap_int_id in E by (unfold INT_MIN, INT_MAX in *; lia).
      apply next_fast_result_ge in E; [| lia].
      unfold INT_MIN in E. lia.
Qed.

Lemma kiss_fft_next_fast_size_fixed_witness :
  kiss_fft_next_fast_size 32 360 = Some 360 <-> only_235 360.
Proof.
  apply (kiss_fft_next_fast_size_fixed 360 32); [unfold INT_MAX; lia | lia].
Defined.

(** The advised length is less than twice the requested one: the next power
    of two is always a candidate. *)
Theorem kiss_fft_next_fast_size_below_double n :
  1 <= n <= MAX_FAST ->
  exists m,
    (exists fuel0, forall fuel, (fuel0 <= fuel)%nat ->
       kiss_fft_next_fast_size fuel n = Some m) /\
    n <= m < 2 * n.
Proof.
  intros Hn.
  destruct (next_fast_loop_spec (Z.to_nat (MAX_FAST - n)) n Hn) as (m & Hr & Hrun & Hsm & Hmin).
  { rewrite Z2Nat.id; lia. }
  exists m. split; [eexists; exact Hrun |]. split; [lia |].
  destruct (Z.eq_dec n 1) as [-> | Hn1].
  - destruct (Z_lt_le_dec m 2) as [Hlt | Hge]; [lia | exfalso].
    apply (Hmin 1 ltac:(lia)). intros q [Hq _] Hd.
    apply Z.divide_1_r_nonneg in Hd; lia.
  - pose proof (Z.log2_up_spec n ltac:(lia)) as [Hlo Hhi].
    pose proof (Z.log2_up_pos n ltac:(lia)) as Hpos.
    set (u := Z.log2_up n) in *.
    assert (Hdbl : 2 ^ u = 2 * 2 ^ Z.pred u).
    { replace u with (Z.succ (Z.pred u)) at 1 by lia. apply Z.pow_succ_r. lia. }
    destruct (Z_lt_le_dec (2 ^ u) m) as [Hlt | Hge]; [exfalso | lia].
    apply (Hmin (2 ^ u) ltac:(lia)). apply only_235_smooth.
    exists (Z.to_nat u), 0%nat, 0%nat. rewrite Z2Nat.id by lia.
    change (Z.of_nat 0) with 0. rewrite !Z.pow_0_r. lia.
Qed.

Lemma kiss_fft_next_fast_size_below_double_witness :
  exists m,
    (exists fuel0, forall fuel, (fuel0 <= fuel)%nat ->
       kiss_fft_next_fast_size fuel 1021 = Some m) /\
    1021 <= m < 2 * 1021.
Proof.
  apply (kiss_fft_next_fast_size_below_double 1021). unfold MAX_FAST. lia.
Defined.

End FastSizeMore.

(** ** The engine: plans, strides, what a call reads and writes *)

Module EngineMore.
Import Engine EngineFacts.
Local Open Scope nat_scope.

Section More.
Context {G : KissGuts} {M : KissMacros}.

(** *** The twiddle table *)

Lemma twiddle_loop_spec n : forall nfft0 inv i0 tw x,
  twiddle_loop n nfft0 inv i0 tw x
  = if (i0 <=? x) && (x <? i0 + n)
    then kf_cexp (if inv then phase_neg (twiddle_phase x nfft0)
                  else twiddle_phase x nfft0)
    else tw x.
Proof.
  induction n as [| n IH]; intros nfft0 inv i0 tw x.
  - simpl. destruct (Nat.leb_spec i0 x); destruct (Nat.ltb_spec x (i0 + 0));
      simpl; try reflexivity; lia.
  - cbn [twiddle_loop]. cbv zeta. rewrite IH. unfold upd.
    destruct (Nat.leb_spec (i0 + 1) x); destruct (Nat.ltb_spec x (i0 + 1 + n));
      destruct (Nat.leb_spec i0 x); destruct (Nat.ltb_spec x (i0 + S n));
      simpl; try lia; try reflexivity.
    all: try (eqb_lia; reflexivity).
    replace x with i0 by lia. rewrite Nat.eqb_refl. reflexivity.
Qed.

(** Given a block, [kiss_fft_alloc] succeeds for every [int] length N >= 1.
    The plan records N and the direction (any non-zero flag is "inverse"),
    its factor buffer describes a block of N samples, twiddle i is
    [kf_cexp] of the phase built for i, negated for the inverse direction,
    and the loop writes the N entries of the table and nothing after. *)
Theorem kiss_fft_alloc_twiddles nfft0 inverse_fft tw :
  (1 <= nfft0 <= CInt.INT_MAX)%Z ->
  exists st,
    kiss_fft_alloc nfft0 inverse_fft (Some tw) = Some st /\
    nfft st = Z.to_nat nfft0 /\
    inverse st = negb (Z.eqb inverse_fft 0) /\
    plan_ok (nfft st) (factors st) /\
    (forall k, k < nfft st ->
       twiddles st k
       = kf_cexp (if inverse st then phase_neg (twiddle_phase k nfft0)
                  else twiddle_phase k nfft0)) /\
    (forall k, nfft st <= k -> twiddles st k = tw k).
Proof.
  intros Hn. unfold kiss_fft_alloc.
  destruct (FactorFacts.kf_factor_emits nfft0 Hn) as (l & E & Hem). rewrite E.
  eexists. split; [reflexivity |]. cbn [nfft inverse factors twiddles].
  split; [reflexivity |]. split; [reflexivity |].
  split; [eapply emits_plan_ok; [exact Hem | lia] |].
  split; intros k Hk; rewrite twiddle_loop_spec;
    destruct (Nat.leb_spec 0 k); destruct (Nat.ltb_spec k (0 + Z.to_nat nfft0));
    simpl; try reflexivity; lia.
Qed.

(** *** What the transform reads *)





(** *** The scratch array of the generic butterfly *)

(** For a prime length from 7 on the whole transform is one generic
    butterfly.  When its scratch array cannot be had, the out-of-place call
    still returns normally: the output holds the input samples, copied and
    not transformed, and the caller is given no error. *)
Theorem kiss_fft_stride_scratch_failure nfft0 inverse_fft storage st
  (h : heap) (a b in_stride : nat) :
  Z.prime nfft0 -> (7 <= nfft0 <= CInt.INT_MAX)%Z ->
  kiss_fft_alloc nfft0 inverse_fft storage = Some st ->
  KISS_FFT_TMP_ALLOC (nfft st) = None ->
  a <> b ->
  exists h1,
    kiss_fft_stride st (Some a) (Some b) in_stride h = Done h1 /\
    (forall x, x < nfft st -> h1 b x = h a (x * in_stride)).
Proof.
  intros Hpr Hn Halloc Htmp Hab. unfold kiss_fft_alloc in Halloc.
  destruct storage as [tw |]; [| discriminate].
  rewrite (FactorMore.kf_factor_prime_single nfft0 Hpr ltac:(lia)) in Halloc.
  injection Halloc as <-. cbn [nfft factors map fst snd] in *.
  unfold kiss_fft_stride. cbn [ptr_eqb nfft factors].
  replace (a =? b) with false by (symmetry; apply Nat.eqb_neq; exact Hab).
  eexists. split; [reflexivity |].
  intros x Hx. unfold store. rewrite Nat.eqb_refl.
  try change (Z.to_nat 1) with 1. try change (Pos.to_nat 1) with 1.
  cbn [kf_work Nat.eqb].
  assert (Hbig : 7 <= Z.to_nat nfft0) by lia.
  destruct (Z.to_nat nfft0) as [| [| [| [| [| [| N]]]]]] eqn:EN; try lia.
  cbn [kf_bfly]. unfold kf_bfly_generic. cbn [nfft] in Htmp. rewrite Htmp.
  rewrite work_copy_spec.
  destruct (Nat.leb_spec 0 x); destruct (Nat.ltb_spec x (0 + S (S (S (S (S (S N)))))));
    simpl; try lia.
  f_equal. lia.
Qed.

(** *** The butterflies, column by column *)

Lemma kf_bfly2_at F Fout fstride st m j x :
  j < m -> col2 Fout m j x ->
  kf_bfly2 F Fout fstride st m x = body2 (twiddles st) fstride Fout m j F x.
Proof.
  intros Hj Hc. rewrite kf_bfly2_columns.
  apply columns_at with (col := col2 Fout m) (bound := m); try lia; try exact Hc.
  - intros; apply body2_frame; assumption.
  - intros; apply body2_local; assumption.
  - unfold col2; intros; lia.
Qed.

Lemma kf_bfly3_at F Fout fstride st m j x :
  j < m -> col3 Fout m j x ->
  kf_bfly3 F Fout fstride st m x
  = body3 (twiddles st) (twiddles st (fstride * m)) fstride Fout m j F x.
Proof.
  intros Hj Hc. rewrite kf_bfly3_columns.
  apply columns_at with (col := col3 Fout m) (bound := m); try lia; try exact Hc.
  - intros; apply body3_frame; assumption.
  - intros; apply body3_local; assumption.
  - unfold col3; intros; lia.
Qed.

Lemma kf_bfly5_at F Fout fstride st m j x :
  j < m -> col5 Fout m j x ->
  kf_bfly5 F Fout fstride st m x
  = body5 (twiddles st) (twiddles st (fstride * m)) (twiddles st (fstride * 2 * m))
      fstride Fout m j F x.
Proof.
  intros Hj Hc. rewrite kf_bfly5_columns.
  apply columns_at with (col := col5 Fout m) (bound := m); try lia; try exact Hc.
  - intros; apply body5_frame; assumption.
  - intros; apply body5_local; assumption.
  - unfold col5; intros; lia.
Qed.

(** The radix-2 butterfly on a block of 2m cells: for each j < m, with
    t = Fout[m+j] * twiddle[j*fstride], it leaves Fout[j] + t in cell j and
    Fout[j] - t in cell m+j. *)
Theorem kf_bfly2_formula F Fout fstride st m j :
  j < m ->
  let t := C_MUL (F (Fout + m + j)) (twiddles st (j * fstride)) in
  kf_bfly2 F Fout fstride st m (Fout + j) = C_ADDTO (F (Fout + j)) t /\
  kf_bfly2 F Fout fstride st m (Fout + m + j) = C_SUB (F (Fout + j)) t.
Proof.
  intros Hj t. subst t.
  rewrite (kf_bfly2_at F Fout fstride st m j (Fout + j) Hj) by (unfold col2; lia).
  rewrite (kf_bfly2_at F Fout fstride st m j (Fout + m + j) Hj) by (unfold col2; lia).
  unfold body2. cbn [bfly2_loop]. unfold C_FIXDIV, upd. eqb_lia.
  split; reflexivity.
Qed.

(** The radix-3 butterfly on a block of 3m cells: for each j < m, with
    s1 = Fout[j+m] * twiddle[j*fstride], s2 = Fout[j+2m] * twiddle[2*j*fstride],
    s3 = s1 + s2 and s0 = (s1 - s2) scaled by the imaginary part of
    twiddle[fstride*m], it leaves Fout[j] + s3 in cell j and, with
    h = Fout[j] - s3/2, the values h -+ (i s0, -r s0) in cells j+m and
    j+2m. *)
Theorem kf_bfly3_formula F Fout fstride st m j :
  j < m ->
  let s1 := C_MUL (F (Fout + j + m)) (twiddles st (j * fstride)) in
  let s2 := C_MUL (F (Fout + j + 2 * m)) (twiddles st (j * (fstride * 2))) in
  let s3 := C_ADD s1 s2 in
  let s0 := C_MULBYSCALAR (C_SUB s1 s2) (i (twiddles st (fstride * m))) in
  let hr := s_sub (r (F (Fout + j))) (HALF_OF (r s3)) in
  let hi := s_sub (i (F (Fout + j))) (HALF_OF (i s3)) in
  kf_bfly3 F Fout fstride st m (Fout + j) = C_ADDTO (F (Fout + j)) s3 /\
  kf_bfly3 F Fout fstride st m (Fout + j + m)
  = mk_cpx (s_sub hr (i s0)) (s_add hi (r s0)) /\
  kf_bfly3 F Fout fstride st m (Fout + j + 2 * m)
  = mk_cpx (s_add hr (i s0)) (s_sub hi (r s0)).
Proof.
  intros Hj s1 s2 s3 s0 hr hi. subst s1 s2 s3 s0 hr hi.
  rewrite (kf_bfly3_at F Fout fstride st m j (Fout + j) Hj) by (unfold col3; lia).
  rewrite (kf_bfly3_at F Fout fstride st m j (Fout + j + m) Hj) by (unfold col3; lia).
  rewrite (kf_bfly3_at F Fout fstride st m j (Fout + j + 2 * m) Hj)
    by (unfold col3; lia).
  unfold body3. cbn [bfly3_loop]. unfold C_FIXDIV, upd. eqb_lia. cbn [r i].
  repeat split; reflexivity.
Qed.

(** The radix-4 butterfly on a block of 4m cells: for each j < m, with
    s0, s1, s2 the cells j+m, j+2m, j+3m times the twiddles j*fstride,
    2*j*fstride, 3*j*fstride, it leaves (Fout[j] + s1) + (s0 + s2) in cell
    j, (Fout[j] + s1) - (s0 + s2) in cell j+2m, and in cells j+m and j+3m
    the values (Fout[j] - s1) -+ i (s0 - s2), the signs taken by the
    direction of the plan. *)
Theorem kf_bfly4_formula F Fout fstride st m j :
  j < m ->
  let s0 := C_MUL (F (Fout + j + m)) (twiddles st (j * fstride)) in
  let s1 := C_MUL (F (Fout + j + 2 * m)) (twiddles st (j * (fstride * 2))) in
  let s2 := C_MUL (F (Fout + j + 3 * m)) (twiddles st (j * (fstride * 3))) in
  let s5 := C_SUB (F (Fout + j)) s1 in
  let a := C_ADDTO (F (Fout + j)) s1 in
  let s3 := C_ADD s0 s2 in
  let s4 := C_SUB s0 s2 in
  let plus := mk_cpx (s_add (r s5) (i s4)) (s_sub (i s5) (r s4)) in
  let minus := mk_cpx (s_sub (r s5) (i s4)) (s_add (i s5) (r s4)) in
  kf_bfly4 F Fout fstride st m (Fout + j) = C_ADDTO a s3 /\
  kf_bfly4 F Fout fstride st m (Fout + j + 2 * m) = C_SUB a s3 /\
  kf_bfly4 F Fout fstride st m (Fout + j + m)
  = (if inverse st then minus else plus) /\
  kf_bfly4 F Fout fstride st m (Fout + j + 3 * m)
  = (if inverse st then plus else minus).
Proof.
  intros Hj s0 s1 s2 s5 a s3 s4 plus minus. subst s0 s1 s2 s5 a s3 s4 plus minus.
  rewrite (kf_bfly4_at F Fout fstride st m j (Fout + j) Hj) by (unfold col4; lia).
  rewrite (kf_bfly4_at F Fout fstride st m j (Fout + j + m) Hj) by (unfold col4; lia).
  rewrite (kf_bfly4_at F Fout fstride st m j (Fout + j + 2 * m) Hj)
    by (unfold col4; lia).
  rewrite (kf_bfly4_at F Fout fstride st m j (Fout + j + 3 * m) Hj)
    by (unfold col4; lia).
  unfold body4. cbn [bfly4_loop].
  destruct (inverse st); unfold C_FIXDIV, upd; eqb_lia;
    repeat split; reflexivity.
Qed.

(** The radix-5 butterfly on a block of 5m cells: for each j < m, with
    s1 .. s4 the cells m+j .. 4m+j times the twiddles j*fstride ..
    4*j*fstride, the sums s7 = s1 + s4, s8 = s2 + s3 and differences
    s10 = s1 - s4, s9 = s2 - s3, and ya = twiddle[fstride*m],
    yb = twiddle[2*fstride*m], it leaves Fout[j] + s7 + s8 in cell j,
    s5 -+ s6 in cells m+j and 4m+j, and s11 +- s12 in cells 2m+j and 3m+j. *)
Theorem kf_bfly5_formula F Fout fstride st m j :
  j < m ->
  let ya := twiddles st (fstride * m) in
  let yb := twiddles st (fstride * 2 * m) in
  let s0 := F (Fout + j) in
  let s1 := C_MUL (F (Fout + m + j)) (twiddles st (j * fstride)) in
  let s2 := C_MUL (F (Fout + 2 * m + j)) (twiddles st (2 * j * fstride)) in
  let s3 := C_MUL (F (Fout + 3 * m + j)) (twiddles st (3 * j * fstride)) in
  let s4 := C_MUL (F (Fout + 4 * m + j)) (twiddles st (4 * j * fstride)) in
  let s7 := C_ADD s1 s4 in
  let s10 := C_SUB s1 s4 in
  let s8 := C_ADD s2 s3 in
  let s9 := C_SUB s2 s3 in
  let s5 :=
    mk_cpx (s_add (s_add (r s0) (S_MUL (r s7) (r ya))) (S_MUL (r s8) (r yb)))
           (s_add (s_add (i s0) (S_MUL (i s7) (r ya))) (S_MUL (i s8) (r yb))) in
  let s6 :=
    mk_cpx (s_add (S_MUL (i s10) (i ya)) (S_MUL (i s9) (i yb)))
           (s_sub (s_neg (S_MUL (r s10) (i ya))) (S_MUL (r s9) (i yb))) in
  let s11 :=
    mk_cpx (s_add (s_add (r s0) (S_MUL (r s7) (r yb))) (S_MUL (r s8) (r ya)))
           (s_add (s_add (i s0) (S_MUL (i s7) (r yb))) (S_MUL (i s8) (r ya))) in
  let s12 :=
    mk_cpx (s_add (s_neg (S_MUL (i s10) (i yb))) (S_MUL (i s9) (i ya)))
           (s_sub (S_MUL (r s10) (i yb)) (S_MUL (r s9) (i ya))) in
  kf_bfly5 F Fout fstride st m (Fout + j)
  = mk_cpx (s_add (r s0) (s_add (r s7) (r s8)))
           (s_add (i s0) (s_add (i s7) (i s8))) /\
  kf_bfly5 F Fout fstride st m (Fout + m + j) = C_SUB s5 s6 /\
  kf_bfly5 F Fout fstride st m (Fout + 4 * m + j) = C_ADD s5 s6 /\
  kf_bfly5 F Fout fstride st m (Fout + 2 * m + j) = C_ADD s11 s12 /\
  kf_bfly5 F Fout fstride st m (Fout + 3 * m + j) = C_SUB s11 s12.
Proof.
  intros Hj ya yb s0 s1 s2 s3 s4 s7 s10 s8 s9 s5 s6 s11 s12.
  subst ya yb s0 s1 s2 s3 s4 s7 s10 s8 s9 s5 s6 s11 s12.
  rewrite (kf_bfly5_at F Fout fstride st m j (Fout + j) Hj) by (unfold col5; lia).
  rewrite (kf_bfly5_at F Fout fstride st m j (Fout + m + j) Hj) by (unfold col5; lia).
  rewrite (kf_bfly5_at F Fout fstride st m j (Fout + 2 * m + j) Hj)
    by (unfold col5; lia).
  rewrite (kf_bfly5_at F Fout fstride st m j (Fout + 3 * m + j) Hj)
    by (unfold col5; lia).
  rewrite (kf_bfly5_at F Fout fstride st m j (Fout + 4 * m + j) Hj)
    by (unfold col5; lia).
  unfold body5. cbn [bfly5_loop]. unfold C_FIXDIV, upd. eqb_lia.
  repeat split; reflexivity.
Qed.


(** *** The twiddle entries a transform reads *)

Lemma columns_ext (body body' : nat -> buf -> buf) k : forall j F,
  (forall j' B, j <= j' < j + k -> body j' B = body' j' B) ->
  columns body k j F = columns body' k j F.
Proof.
  induction k as [| k IH]; intros j F H; [reflexivity |].
  cbn [columns]. rewrite (H j F) by lia. apply IH.
  intros j' B Hj'. apply H. lia.
Qed.

Lemma twidx_step_range fstride N k twidx :
  (Z.of_nat N <= 2 ^ 30)%Z -> (0 <= twidx < Z.of_nat N)%Z -> fstride * k < N ->
  (0 <= twidx_step fstride N k twidx < Z.of_nat N)%Z.
Proof.
  intros Hsmall Hidx Hk. unfold twidx_step. cbv zeta.
  change (2 ^ 30)%Z with 1073741824%Z in Hsmall.
  rewrite CIntFacts.wrap_int_id by (unfold CInt.INT_MIN, CInt.INT_MAX; lia).
  destruct (Z.leb_spec (Z.of_nat N) (twidx + Z.of_nat (fstride * k))); lia.
Qed.

Lemma generic_accum_tw n : forall tw tw' scratch fstride N Fout k q twidx F,
  (forall t, t < N -> tw t = tw' t) -> (Z.of_nat N <= 2 ^ 30)%Z ->
  (0 <= twidx < Z.of_nat N)%Z -> fstride * k < N ->
  generic_accum n tw scratch fstride N Fout k q twidx F
  = generic_accum n tw' scratch fstride N Fout k q twidx F.
Proof.
  induction n as [| n IH]; intros tw tw' scratch fstride N Fout k q twidx F
    Htw Hsmall Hidx Hk; [reflexivity |].
  cbn [generic_accum]. cbv zeta.
  pose proof (twidx_step_range fstride N k twidx Hsmall Hidx Hk) as Hstep.
  assert (Hread : tw_read tw (twidx_step fstride N k twidx)
                  = tw_read tw' (twidx_step fstride N k twidx)).
  { unfold tw_read.
    destruct (Z.ltb_spec (twidx_step fstride N k twidx) 0); [lia |].
    apply Htw. lia. }
  rewrite Hread. apply IH; assumption.
Qed.

Lemma generic_scatter_tw n : forall tw tw' scratch fstride N Fout m p q1 k F,
  (forall t, t < N -> tw t = tw' t) -> 0 < N -> (Z.of_nat N <= 2 ^ 30)%Z ->
  (forall j, j < n -> fstride * (k + j * m) < N) ->
  generic_scatter n tw scratch fstride N Fout m p q1 k F
  = generic_scatter n tw' scratch fstride N Fout m p q1 k F.
Proof.
  induction n as [| n IH]; intros tw tw' scratch fstride N Fout m p q1 k F
    Htw HN Hsmall Hk; [reflexivity |].
  cbn [generic_scatter]. cbv zeta.
  rewrite (generic_accum_tw (p - 1) tw tw') by
    (try assumption; try lia;
     specialize (Hk 0 ltac:(lia)); rewrite Nat.mul_0_l, Nat.add_0_r in Hk; exact Hk).
  apply IH; try assumption.
  intros j Hj. specialize (Hk (S j) ltac:(lia)).
  replace (k + m + j * m) with (k + S j * m) by lia. exact Hk.
Qed.

Lemma generic_loop_tw n : forall tw tw' fstride N Fout m p u scratch F,
  (forall t, t < N -> tw t = tw' t) -> 0 < N -> (Z.of_nat N <= 2 ^ 30)%Z ->
  fstride * p * m = N -> u + n <= m ->
  generic_loop n tw fstride N Fout m p u scratch F
  = generic_loop n tw' fstride N Fout m p u scratch F.
Proof.
  induction n as [| n IH]; intros tw tw' fstride N Fout m p u scratch F
    Htw HN Hsmall Hst Hu; [reflexivity |].
  cbn [generic_loop]. cbv zeta.
  rewrite (generic_scatter_tw p tw tw'); try assumption.
  - apply IH; try assumption. lia.
  - intros j Hj. pose proof (cell_in_block m p u j ltac:(lia) Hj) as Hc.
    assert (0 < fstride) by nia. nia.
Qed.

(** Two plans that differ at most in twiddle entries from nfft on. *)
Section SameTable.
Variables st st' : kiss_fft_state.
Hypothesis same_nfft : nfft st' = nfft st.
Hypothesis same_inverse : inverse st' = inverse st.
Hypothesis same_twiddles : forall t, t < nfft st -> twiddles st t = twiddles st' t.
Hypothesis nfft_pos : 0 < nfft st.
Hypothesis nfft_small : (Z.of_nat (nfft st) <= 2 ^ 30)%Z.

Lemma kf_bfly_tw F Fout fstride m p :
  fstride * p * m = nfft st ->
  kf_bfly F Fout fstride st m p = kf_bfly F Fout fstride st' m p.
Proof.
  intros Hst.
  assert (Hf : 0 < fstride) by nia.
  assert (Hm : 0 < m) by nia.
  assert (Hgen :
    kf_bfly_generic F Fout fstride st m p = kf_bfly_generic F Fout fstride st' m p).
  { unfold kf_bfly_generic. destruct (KISS_FFT_TMP_ALLOC p) as [scratch |];
      [| reflexivity].
    rewrite same_nfft. apply generic_loop_tw; try assumption. lia. }
  destruct p as [| [| [| [| [| [| p]]]]]]; try exact Hgen; cbn [kf_bfly].
  - rewrite !kf_bfly2_columns. apply columns_ext. intros j B Hj.
    unfold body2. cbn [bfly2_loop]. cbv zeta.
    rewrite (same_twiddles (j * fstride)) by nia. reflexivity.
  - rewrite !kf_bfly3_columns.
    rewrite (same_twiddles (fstride * m)) by nia.
    apply columns_ext. intros j B Hj.
    unfold body3. cbn [bfly3_loop]. cbv zeta.
    rewrite (same_twiddles (j * fstride)) by nia.
    rewrite (same_twiddles (j * (fstride * 2))) by nia. reflexivity.
  - rewrite !kf_bfly4_columns. rewrite same_inverse.
    apply columns_ext. intros j B Hj.
    unfold body4. cbn [bfly4_loop]. cbv zeta.
    rewrite (same_twiddles (j * fstride)) by nia.
    rewrite (same_twiddles (j * (fstride * 2))) by nia.
    rewrite (same_twiddles (j * (fstride * 3))) by nia. reflexivity.
  - rewrite !kf_bfly5_columns.
    rewrite (same_twiddles (fstride * m)) by nia.
    rewrite (same_twiddles (fstride * 2 * m)) by nia.
    apply columns_ext. intros j B Hj.
    unfold body5. cbn [bfly5_loop]. cbv zeta.
    rewrite (same_twiddles (j * fstride)) by nia.
    rewrite (same_twiddles (2 * j * fstride)) by nia.
    rewrite (same_twiddles (3 * j * fstride)) by nia.
    rewrite (same_twiddles (4 * j * fstride)) by nia. reflexivity.
Qed.

Lemma work_rounds_sub (sub sub' : buf -> nat -> nat -> buf) m n :
  forall step Fout fp F,
  (forall B o q, sub B o q = sub' B o q) ->
  work_rounds sub n m step Fout fp F = work_rounds sub' n m step Fout fp F.
Proof.
  induction n as [| n IH]; intros step Fout fp F H; [reflexivity |].
  cbn [work_rounds]. rewrite H. apply IH. exact H.
Qed.

Lemma kf_work_tw fs : forall len F Fout f fp fstride in_stride,
  plan_ok len fs -> fstride * len = nfft st ->
  kf_work fs F Fout f fp fstride in_stride st
  = kf_work fs F Fout f fp fstride in_stride st'.
Proof.
  induction fs as [| [p m] fs IH]; intros len F Fout f fp fstride in_stride Hok Hst;
    [contradiction |].
  destruct Hok as (Hlen & Hp & Hm). cbn [kf_work].
  assert (Hb : fstride * p * m = nfft st) by (rewrite <- Hst, <- Hlen; ring).
  destruct (Nat.eqb_spec m 1) as [-> | Hne].
  - apply kf_bfly_tw. exact Hb.
  - destruct Hm as [-> | [Hm2 Hok']]; [contradiction |].
    rewrite (work_rounds_sub
               (fun F Fout fp => kf_work fs F Fout f fp (fstride * p) in_stride st)
               (fun F Fout fp => kf_work fs F Fout f fp (fstride * p) in_stride st')).
    + apply kf_bfly_tw. exact Hb.
    + intros B o q. apply (IH m); [exact Hok' | exact Hb].
Qed.

End SameTable.

(** For a length up to 2^30 a transform reads the twiddle table below index
    nfft only: with a plan whose table differs from that of
    [kiss_fft_alloc] in entries from nfft on, every call ends as with the
    plan itself, in place or out of place. *)
Theorem kiss_fft_stride_twiddles_below_nfft nfft0 inverse_fft storage st tw'
  (fin fout : ptr) (in_stride : nat) (h : heap) :
  (1 <= nfft0 <= 2 ^ 30)%Z ->
  kiss_fft_alloc nfft0 inverse_fft storage = Some st ->
  (forall t, t < nfft st -> tw' t = twiddles st t) ->
  kiss_fft_stride (mk_state (nfft st) (inverse st) (factors st) tw')
    fin fout in_stride h
  = kiss_fft_stride st fin fout in_stride h.
Proof.
  intros Hn Halloc Htw.
  change (2 ^ 30)%Z with 1073741824%Z in Hn.
  destruct (kiss_fft_alloc_plan_ok nfft0 inverse_fft storage st
              ltac:(unfold CInt.INT_MAX; lia) Halloc) as [Hlen Hok].
  assert (Hpos : 0 < nfft st) by lia.
  assert (Hsmall : (Z.of_nat (nfft st) <= 2 ^ 30)%Z)
    by (change (2 ^ 30)%Z with 1073741824%Z; lia).
  assert (Hwork : forall F f,
    kf_work (factors st) F 0 f 0 1 in_stride
      (mk_state (nfft st) (inverse st) (factors st) tw')
    = kf_work (factors st) F 0 f 0 1 in_stride st).
  { intros F f. symmetry.
    apply (kf_work_tw st (mk_state (nfft st) (inverse st) (factors st) tw'))
      with (len := nfft st); try reflexivity; try assumption; try lia.
    intros t Ht. symmetry. apply Htw. exact Ht. }
  unfold kiss_fft_stride. cbn [nfft factors].
  destruct (ptr_eqb fin fout).
  - destruct fout as [b |]; [| reflexivity].
    destruct (KISS_FFT_TMP_ALLOC (nfft st)) as [tmpbuf |]; [| reflexivity].
    rewrite Hwork. reflexivity.
  - destruct fin as [a |], fout as [b |]; try reflexivity.
    rewrite Hwork. reflexivity.
Qed.

End More.

Import Exact.


Lemma kiss_fft_stride_scratch_failure_witness :
  exists h1,
    @kiss_fft_stride ZGuts (ZMacros false) (plan7 false) (Some 0) (Some 1) 1 heap0
    = Done h1 /\
    (forall x, x < 7 -> h1 1 x = heap0 0 (x * 1)).
Proof.
  exact (@kiss_fft_stride_scratch_failure ZGuts (ZMacros false) 7 0 (Some (zbuf []))
           (plan7 false) heap0 0 1 1 FastSizeFacts.prime_7
           ltac:(unfold CInt.INT_MAX; lia) eq_refl eq_refl ltac:(lia)).
Defined.

Lemma kiss_fft_alloc_twiddles_witness :
  exists st,
    @kiss_fft_alloc ZGuts (ZMacros true) 4 0 (Some (zbuf [])) = Some st /\
    nfft st = Z.to_nat 4 /\
    inverse st = negb (Z.eqb 0 0) /\
    plan_ok (nfft st) (factors st) /\
    (forall k, k < nfft st ->
       twiddles st k
       = @kf_cexp ZGuts (ZMacros true)
           (if inverse st then phase_neg (twiddle_phase k 4)
            else twiddle_phase k 4)) /\
    (forall k, nfft st <= k -> twiddles st k = zbuf [] k).
Proof.
  exact (@kiss_fft_alloc_twiddles ZGuts (ZMacros true) 4 0 (zbuf [])
           ltac:(unfold CInt.INT_MAX; lia)).
Defined.


Lemma kf_bfly2_formula_witness :
  @kf_bfly2 ZGuts (ZMacros true) samples 0 1 (plan4 true) 2 (0 + 1)
  = @C_ADDTO ZGuts (ZMacros true) (samples (0 + 1))
      (@C_MUL ZGuts (ZMacros true) (samples (0 + 2 + 1))
         (twiddles (plan4 true) (1 * 1))).
Proof.
  exact (proj1 (@kf_bfly2_formula ZGuts (ZMacros true) samples 0 1 (plan4 true) 2 1
                  ltac:(lia))).
Defined.

Lemma kf_bfly3_formula_witness :
  @kf_bfly3 ZGuts (ZMacros true) samples 0 1 (plan4 true) 2 (0 + 1)
  = @C_ADDTO ZGuts (ZMacros true) (samples (0 + 1))
      (@C_ADD ZGuts (ZMacros true)
         (@C_MUL ZGuts (ZMacros true) (samples (0 + 1 + 2))
            (twiddles (plan4 true) (1 * 1)))
         (@C_MUL ZGuts (ZMacros true) (samples (0 + 1 + 2 * 2))
            (twiddles (plan4 true) (1 * (1 * 2))))).
Proof.
  exact (proj1 (@kf_bfly3_formula ZGuts (ZMacros true) samples 0 1 (plan4 true) 2 1
                  ltac:(lia))).
Defined.

Lemma kf_bfly4_formula_witness :
  @kf_bfly4 ZGuts (ZMacros true) samples 0 1 (plan4 true) 1 (0 + 0 + 2 * 1)
  = @C_SUB ZGuts (ZMacros true)
      (@C_ADDTO ZGuts (ZMacros true) (samples (0 + 0))
         (@C_MUL ZGuts (ZMacros true) (samples (0 + 0 + 2 * 1))
            (twiddles (plan4 true) (0 * (1 * 2)))))
      (@C_ADD ZGuts (ZMacros true)
         (@C_MUL ZGuts (ZMacros true) (samples (0 + 0 + 1))
            (twiddles (plan4 true) (0 * 1)))
         (@C_MUL ZGuts (ZMacros true) (samples (0 + 0 + 3 * 1))
            (twiddles (plan4 true) (0 * (1 * 3))))).
Proof.
  exact (proj1 (proj2 (@kf_bfly4_formula ZGuts (ZMacros true) samples 0 1 (plan4 true)
                         1 0 ltac:(lia)))).
Defined.

Lemma kf_bfly5_formula_witness :
  let s7 :=
    @C_ADD ZGuts (ZMacros true)
      (@C_MUL ZGuts (ZMacros true) (samples (0 + 1 + 0)) (twiddles (plan4 true) (0 * 1)))
      (@C_MUL ZGuts (ZMacros true) (samples (0 + 4 * 1 + 0))
         (twiddles (plan4 true) (4 * 0 * 1))) in
  let s8 :=
    @C_ADD ZGuts (ZMacros true)
      (@C_MUL ZGuts (ZMacros true) (samples (0 + 2 * 1 + 0))
         (twiddles (plan4 true) (2 * 0 * 1)))
      (@C_MUL ZGuts (ZMacros true) (samples (0 + 3 * 1 + 0))
         (twiddles (plan4 true) (3 * 0 * 1))) in
  @kf_bfly5 ZGuts (ZMacros true) samples 0 1 (plan4 true) 1 (0 + 0)
  = @mk_cpx ZGuts
      (@s_add ZGuts (r (samples (0 + 0))) (@s_add ZGuts (r s7) (r s8)))
      (@s_add ZGuts (i (samples (0 + 0))) (@s_add ZGuts (i s7) (i s8))).
Proof.
  exact (proj1 (@kf_bfly5_formula ZGuts (ZMacros true) samples 0 1 (plan4 true) 1 0
                  ltac:(lia))).
Defined.


Lemma kiss_fft_stride_twiddles_below_nfft_witness :
  @kiss_fft_stride ZGuts (ZMacros true)
    (mk_state (nfft (plan4 true)) (inverse (plan4 true)) (factors (plan4 true))
       (upd (twiddles (plan4 true)) 4 (zcpx 5 5)))
    (Some 0) (Some 1) 1 heap0
  = @kiss_fft_stride ZGuts (ZMacros true) (plan4 true) (Some 0) (Some 1) 1 heap0.
Proof.
  apply (@kiss_fft_stride_twiddles_below_nfft ZGuts (ZMacros true) 4 0 (Some (zbuf []))
           (plan4 true) (upd (twiddles (plan4 true)) 4 (zcpx 5 5)) (Some 0) (Some 1) 1
           heap0 ltac:(lia) eq_refl).
  intros t Ht. destruct t as [| [| [| [| t]]]]; [reflexivity .. | cbn in Ht; lia].
Defined.

End EngineMore.

(** ** The lane packing: layouts and the floats written *)

Module SSEToolsMore.
Import SSETools EngineFacts SSEToolsFacts.
Local Open Scope nat_scope.

Section Lanes.
Variable float : Type.

(** [SSETools_pack128] cuts the source into four runs of size128 floats and
    puts run l into lane l: float l of vector j is source[l*size128 + j].
    It writes the 4*size128 floats of the target and nothing after. *)
Theorem SSETools_pack128_layout (target source : farray float) size128 :
  let out := SSETools_pack128 float target source size128 in
  (forall j l, j < size128 -> l < 4 -> out (4 * j + l) = source (l * size128 + j)) /\
  (forall x, 4 * size128 <= x -> out x = target x).
Proof.
  intros out. split.
  - intros j l Hj Hl.
    destruct (SSETools_pack128_at float target source size128 j Hj)
      as (P0 & P1 & P2 & P3).
    assert (Hc : l = 0 \/ l = 1 \/ l = 2 \/ l = 3) by lia.
    destruct Hc as [-> | [-> | [-> | ->]]].
    + rewrite Nat.add_0_r. exact P0.
    + rewrite Nat.mul_1_l. exact P1.
    + exact P2.
    + exact P3.
  - intros x Hx. subst out. unfold SSETools_pack128. cbv zeta.
    apply pack128_loop_frame. lia.
Qed.

(** [SSETools_unpack128] puts lane l of vector j at target[l*size128 + j]:
    four runs of size128 floats, one per lane, and nothing after them. *)
Theorem SSETools_unpack128_layout (target source : farray float) size128 :
  let out := SSETools_unpack128 float target source size128 in
  (forall j l, j < size128 -> l < 4 -> out (l * size128 + j) = source (4 * j + l)) /\
  (forall x, 4 * size128 <= x -> out x = target x).
Proof.
  intros out. split.
  - intros j l Hj Hl.
    destruct (SSETools_unpack128_at float target source size128 j Hj)
      as (U0 & U1 & U2 & U3).
    assert (Hc : l = 0 \/ l = 1 \/ l = 2 \/ l = 3) by lia.
    destruct Hc as [-> | [-> | [-> | ->]]].
    + rewrite Nat.add_0_r. exact U0.
    + rewrite Nat.mul_1_l. exact U1.
    + exact U2.
    + exact U3.
  - intros x Hx. subst out. unfold SSETools_unpack128. cbv zeta.
    change 0 with (4 * 0) at 1.
    apply unpack128_loop_frame. intros j' Hj'. lia.
Qed.

(** [SSETools_pack_2_128_complex] takes four interleaved (real, imaginary)
    signals of num_elem_fft samples: sample j fills the vectors 2j (real
    parts) and 2j+1 (imaginary parts), signal l in lane l.  It writes the
    8*num_elem_fft floats of the target and nothing after. *)
Theorem SSETools_pack_2_128_complex_layout (target s0 s1 s2 s3 : farray float)
  num_elem_fft :
  let out := SSETools_pack_2_128_complex float target s0 s1 s2 s3 num_elem_fft in
  (forall j c, j < num_elem_fft -> c < 2 ->
     out (8 * j + 4 * c) = s0 (2 * j + c) /\
     out (8 * j + 4 * c + 1) = s1 (2 * j + c) /\
     out (8 * j + 4 * c + 2) = s2 (2 * j + c) /\
     out (8 * j + 4 * c + 3) = s3 (2 * j + c)) /\
  (forall x, 8 * num_elem_fft <= x -> out x = target x).
Proof.
  intros out. split.
  - intros j c Hj Hc.
    destruct (SSETools_pack_2_128_complex_at float target s0 s1 s2 s3 num_elem_fft j Hj)
      as ((P0 & P1 & P2 & P3) & (R0 & R1 & R2 & R3)).
    assert (Hc' : c = 0 \/ c = 1) by lia.
    destruct Hc' as [-> | ->].
    + rewrite !Nat.add_0_r. repeat split; assumption.
    + replace (8 * j + 4 * 1 + 1) with (8 * j + 5) by lia.
      replace (8 * j + 4 * 1 + 2) with (8 * j + 6) by lia.
      replace (8 * j + 4 * 1 + 3) with (8 * j + 7) by lia.
      replace (8 * j + 4 * 1) with (8 * j + 4) by lia.
      repeat split; assumption.
  - intros x Hx. subst out. unfold SSETools_pack_2_128_complex.
    change 0 with (2 * 0) at 1.
    apply pack_complex_loop_frame. lia.
Qed.

(** [SSETools_unpack_2_128_complex] gives signal l the lane l of every
    vector: floats 2j and 2j+1 of its array are the real and imaginary part
    held by the vectors 2j and 2j+1.  Each of the four arrays is written in
    its first 2*num_elem_fft floats and nowhere else. *)
Theorem SSETools_unpack_2_128_complex_layout (t0 t1 t2 t3 source : farray float)
  num_elem_fft :
  let out := SSETools_unpack_2_128_complex float t0 t1 t2 t3 source num_elem_fft in
  (forall j c, j < num_elem_fft -> c < 2 ->
     q0 float out (2 * j + c) = source (8 * j + 4 * c) /\
     q1 float out (2 * j + c) = source (8 * j + 4 * c + 1) /\
     q2 float out (2 * j + c) = source (8 * j + 4 * c + 2) /\
     q3 float out (2 * j + c) = source (8 * j + 4 * c + 3)) /\
  (forall x, 2 * num_elem_fft <= x ->
     q0 float out x = t0 x /\ q1 float out x = t1 x /\
     q2 float out x = t2 x /\ q3 float out x = t3 x).
Proof.
  intros out. split.
  - intros j c Hj Hc.
    destruct (SSETools_unpack_2_128_complex_at float t0 t1 t2 t3 source num_elem_fft j Hj)
      as ((U0 & U1 & U2 & U3) & (V0 & V1 & V2 & V3)).
    fold out in U0, U1, U2, U3, V0, V1, V2, V3.
    assert (Hc' : c = 0 \/ c = 1) by lia.
    destruct Hc' as [-> | ->].
    + rewrite !Nat.add_0_r. repeat split; assumption.
    + replace (8 * j + 4 * 1 + 1) with (8 * j + 5) by lia.
      replace (8 * j + 4 * 1 + 2) with (8 * j + 6) by lia.
      replace (8 * j + 4 * 1 + 3) with (8 * j + 7) by lia.
      replace (8 * j + 4 * 1) with (8 * j + 4) by lia.
      repeat split; assumption.
  - intros x Hx. subst out. unfold SSETools_unpack_2_128_complex.
    change 0 with (8 * 0) at 1.
    apply (unpack_complex_loop_frame float num_elem_fft source num_elem_fft 0).
    intros j' Hj'. lia.
Qed.

End Lanes.

End SSEToolsMore.
